(** * A fixed-size-block memory pool: the allocator of [main.cpp]

    The development embeds the pool of [main.cpp] (the free function
    [alignPointer] and the class [MemoryPool] with its [Spinlock]) and states
    its properties over that embedding.

    Conventions.
    - [size_t] and [uintptr_t] are 64-bit unsigned integers: a value is a [Z]
      in [[0, 2^64)] and every arithmetic result is reduced by [wrap].
    - A pointer is its address; [nullptr] is [0].
    - Raw memory is byte addressed.  A [Block] is the eight bytes of its
      [next] field, stored little-endian at the block's address.
    - [operator new] is the environment: the state carries the answers the
      next calls will get, [None] standing for [std::bad_alloc].
    - A call either returns, throws, or spins forever in [lockPool].
    - Memory is total: the model gives every store a result, also a store
      outside the regions reserved, where the behaviour of the program is
      undefined.  That a call returns is stated under hypotheses that say
      where its stores go. *)

From Stdlib Require Import ZArith List Lia Bool.
From Stdlib Require Import Sorting.Permutation Sorting.Sorted.
Import ListNotations.
Open Scope Z_scope.

(** ** Machine words *)

Module Word.

Definition width : Z := 64.
Definition modulus : Z := 2 ^ width.

(** Unsigned wrap-around of [size_t] and [uintptr_t] arithmetic. *)
Definition wrap (z : Z) : Z := z mod modulus.

(** [sizeof(Block)]: one pointer. *)
Definition ptr_bytes : Z := 8.

Definition in_range (z : Z) : Prop := 0 <= z < modulus.

End Word.

Import Word.

(** ** Byte-addressed memory *)

Module Memory.

(** The byte held at each address.  Only the low eight bits of a cell are
    ever observed, so any function is a memory, whatever its initial
    (indeterminate) contents. *)
Definition mem : Type := Z -> Z.

Definition store_byte (m : mem) (a b : Z) : mem :=
  fun x => if x =? a then b else m x.

Definition load_byte (m : mem) (a : Z) : Z := m a mod 256.

Fixpoint store_bytes (m : mem) (a : Z) (bs : list Z) : mem :=
  match bs with
  | [] => m
  | b :: bs' => store_bytes (store_byte m a b) (a + 1) bs'
  end.

Fixpoint load_bytes (m : mem) (a : Z) (n : nat) : list Z :=
  match n with
  | O => []
  | S n' => load_byte m a :: load_bytes m (a + 1) n'
  end.

(** Little-endian bytes of a word. *)
Fixpoint encode_le (n : nat) (v : Z) : list Z :=
  match n with
  | O => []
  | S n' => v mod 256 :: encode_le n' (v / 256)
  end.

Fixpoint decode_le (bs : list Z) : Z :=
  match bs with
  | [] => 0
  | b :: bs' => b + 256 * decode_le bs'
  end.

(** [block->next = v] *)
Definition store_ptr (m : mem) (a v : Z) : mem :=
  store_bytes m a (encode_le 8 v).

(** [block->next] *)
Definition load_ptr (m : mem) (a : Z) : Z :=
  decode_le (load_bytes m a 8).

End Memory.

Import Memory.

(** ** Program state and outcomes *)

(** [class Spinlock]: the [std::atomic_flag]. *)
Record Spinlock : Type := { lock : bool }.

(** The data members of [class MemoryPool]. *)
Record MemoryPool : Type := {
  spinlock : Spinlock;
  freeList : Z;      (* pointer to the first available block *)
  poolStart : Z;     (* pointer to the start of the entire memory pool *)
  blockSize : Z;
  totalBlocks : Z;
  usedBlocks : Z;    (* track the number of blocks currently in use *)
  alignment : Z
}.

Definition with_spinlock (v : Spinlock) (p : MemoryPool) : MemoryPool :=
  {| spinlock := v; freeList := freeList p; poolStart := poolStart p;
     blockSize := blockSize p; totalBlocks := totalBlocks p;
     usedBlocks := usedBlocks p; alignment := alignment p |}.

Definition with_freeList (v : Z) (p : MemoryPool) : MemoryPool :=
  {| spinlock := spinlock p; freeList := v; poolStart := poolStart p;
     blockSize := blockSize p; totalBlocks := totalBlocks p;
     usedBlocks := usedBlocks p; alignment := alignment p |}.

Definition with_poolStart (v : Z) (p : MemoryPool) : MemoryPool :=
  {| spinlock := spinlock p; freeList := freeList p; poolStart := v;
     blockSize := blockSize p; totalBlocks := totalBlocks p;
     usedBlocks := usedBlocks p; alignment := alignment p |}.

Definition with_blockSize (v : Z) (p : MemoryPool) : MemoryPool :=
  {| spinlock := spinlock p; freeList := freeList p; poolStart := poolStart p;
     blockSize := v; totalBlocks := totalBlocks p;
     usedBlocks := usedBlocks p; alignment := alignment p |}.

Definition with_totalBlocks (v : Z) (p : MemoryPool) : MemoryPool :=
  {| spinlock := spinlock p; freeList := freeList p; poolStart := poolStart p;
     blockSize := blockSize p; totalBlocks := v;
     usedBlocks := usedBlocks p; alignment := alignment p |}.

Definition with_usedBlocks (v : Z) (p : MemoryPool) : MemoryPool :=
  {| spinlock := spinlock p; freeList := freeList p; poolStart := poolStart p;
     blockSize := blockSize p; totalBlocks := totalBlocks p;
     usedBlocks := v; alignment := alignment p |}.

Definition with_alignment (v : Z) (p : MemoryPool) : MemoryPool :=
  {| spinlock := spinlock p; freeList := freeList p; poolStart := poolStart p;
     blockSize := blockSize p; totalBlocks := totalBlocks p;
     usedBlocks := usedBlocks p; alignment := v |}.

(** What a run can see: the pool object, raw memory, the global allocator
    ([new_results]: the answers of the coming [operator new] calls, [None]
    for [std::bad_alloc]; [reserved]: the regions handed out so far, with
    the size asked for; [deleted]: the pointers given to [operator delete]),
    latest first. *)
Record state : Type := {
  this : MemoryPool;
  heap : mem;
  new_results : list (option Z);
  reserved : list (Z * Z);
  deleted : list Z
}.

Definition upd_this (f : MemoryPool -> MemoryPool) (s : state) : state :=
  {| this := f (this s); heap := heap s; new_results := new_results s;
     reserved := reserved s; deleted := deleted s |}.

Definition upd_heap (f : mem -> mem) (s : state) : state :=
  {| this := this s; heap := f (heap s); new_results := new_results s;
     reserved := reserved s; deleted := deleted s |}.

(** The exceptions the program throws. *)
Inductive exn : Type :=
| invalid_argument   (* std::invalid_argument, thrown by alignPointer *)
| bad_alloc          (* std::bad_alloc, thrown by operator new *)
| runtime_error.     (* std::runtime_error, thrown by resizePool *)

(** Result of a pure function that may throw. *)
Inductive res (A : Type) : Type :=
| Val (a : A)
| Exn (e : exn).
Arguments Val {A} a.
Arguments Exn {A} e.

(** Result of a call on a state: it returns, it throws (the state is the
    one at the throw), or it never comes back from [lockPool]. *)
Inductive outcome (A : Type) : Type :=
| Returns (a : A) (s : state)
| Throws (e : exn) (s : state)
| Spins.
Arguments Returns {A} a s.
Arguments Throws {A} e s.
Arguments Spins {A}.

Definition M (A : Type) : Type := state -> outcome A.

Definition ret {A} (a : A) : M A := fun s => Returns a s.

Definition bind {A B} (c : M A) (k : A -> M B) : M B :=
  fun s => match c s with
           | Returns a s' => k a s'
           | Throws e s' => Throws e s'
           | Spins => Spins
           end.

Definition throw {A} (e : exn) : M A := fun s => Throws e s.

Definition gets {A} (f : MemoryPool -> A) : M A := fun s => Returns (f (this s)) s.

Definition modify (f : MemoryPool -> MemoryPool) : M unit :=
  fun s => Returns tt (upd_this f s).

Definition lift {A} (r : res A) : M A :=
  match r with
  | Val a => ret a
  | Exn e => throw e
  end.

Declare Scope pool_scope.
Delimit Scope pool_scope with pool.
Notation "x <- c1 ;; c2" := (bind c1 (fun x => c2))
  (at level 61, c1 at next level, right associativity) : pool_scope.
Notation "c1 ;; c2" := (bind c1 (fun _ => c2))
  (at level 61, right associativity) : pool_scope.
Open Scope pool_scope.

(** [block->next] read and written through the heap. *)
Definition read_next (block : Z) : M Z :=
  fun s => Returns (load_ptr (heap s) block) s.

Definition write_next (block v : Z) : M unit :=
  fun s => Returns tt (upd_heap (fun m => store_ptr m block v) s).

(** [operator new(size)]. *)
Definition operator_new (size : Z) : M Z :=
  fun s => match new_results s with
           | [] => Throws bad_alloc s
           | None :: rest =>
               Throws bad_alloc
                 {| this := this s; heap := heap s; new_results := rest;
                    reserved := reserved s; deleted := deleted s |}
           | Some p :: rest =>
               Returns p
                 {| this := this s; heap := heap s; new_results := rest;
                    reserved := (p, size) :: reserved s; deleted := deleted s |}
           end.

(** [operator delete(p)]. *)
Definition operator_delete (p : Z) : M unit :=
  fun s => Returns tt
             {| this := this s; heap := heap s; new_results := new_results s;
                reserved := reserved s; deleted := p :: deleted s |}.

(** ** The program *)

(** [Spinlock::lockPool]: [test_and_set] until the flag was clear.  With no
    other thread to clear it, a set flag is spun on forever. *)
Definition lockPool : M unit :=
  fun s => if lock (spinlock (this s)) then Spins
           else Returns tt (upd_this (with_spinlock {| lock := true |}) s).

(** [Spinlock::unlockPool] *)
Definition unlockPool : M unit :=
  modify (with_spinlock {| lock := false |}).

(** [alignPointer(ptr, alignment)] *)
Definition alignPointer (ptr alignment : Z) : res Z :=
  if (alignment =? 0) || negb (Z.land alignment (wrap (alignment - 1)) =? 0)
  then Exn invalid_argument
  else
    let p := ptr in
    let misalignment := p mod alignment in
    let adjustment := (alignment - misalignment) mod alignment in
    let aligned := wrap (p + adjustment) in
    Val aligned.

(** The linking loop shared by [initializeMemoryPool] and [resizePool]:
    [for (i = 1; i < n; i++) { currentBlock->next = (char* )currentBlock +
    blockSize; currentBlock = currentBlock->next; }], run [iters] times. *)
Fixpoint link_blocks (iters : nat) (blockSize currentBlock : Z) (m : mem)
  : Z * mem :=
  match iters with
  | O => (currentBlock, m)
  | S k =>
      let m' := store_ptr m currentBlock (wrap (currentBlock + blockSize)) in
      link_blocks k blockSize (load_ptr m' currentBlock) m'
  end.

(** Number of rounds of [for (size_t i = 1; i < n; i++)]. *)
Definition rounds (n : Z) : nat := Z.to_nat (n - 1).

Definition link_loop (n blockSize currentBlock : Z) : M Z :=
  fun s =>
    let '(last, m) := link_blocks (rounds n) blockSize currentBlock (heap s) in
    Returns last (upd_heap (fun _ => m) s).

(** [blockSize * n + alignment - 1] in [size_t]. *)
Definition region_bytes (blockSize n alignment : Z) : Z :=
  wrap (wrap (wrap (blockSize * n) + alignment) - 1).

(** [MemoryPool::initializeMemoryPool(blockSize, totalBlocks)] *)
Definition initializeMemoryPool (blockSize' totalBlocks' : Z) : M unit :=
  modify (with_blockSize blockSize') ;;
  modify (with_totalBlocks totalBlocks') ;;
  al <- gets alignment ;;
  modify (with_alignment al) ;;
  rawPool <- operator_new (region_bytes blockSize' totalBlocks' al) ;;
  start <- lift (alignPointer rawPool al) ;;
  modify (with_poolStart start) ;;
  start <- gets poolStart ;;
  modify (with_freeList start) ;;
  currentBlock <- gets freeList ;;
  currentBlock <- link_loop totalBlocks' blockSize' currentBlock ;;
  write_next currentBlock 0.

(** The constructor [MemoryPool(blocksize, totalBlocks, alignment)].  It
    runs on the object's storage as it is found: the flag of the lock has an
    initialiser, the other members have none. *)
Definition MemoryPool_ctor (blocksize totalBlocks' alignment' : Z) : M unit :=
  modify (with_spinlock {| lock := false |}) ;;
  modify (with_alignment alignment') ;;
  initializeMemoryPool blocksize totalBlocks'.

(** [MemoryPool::resizePool()].  The line printed to [std::cout] is left
    out. *)
Definition resizePool : M unit :=
  total <- gets totalBlocks ;;
  let newSize := wrap (total + total / 2) in
  bs <- gets blockSize ;;
  al <- gets alignment ;;
  newRawPool <- operator_new (region_bytes bs newSize al) ;;
  (if newRawPool =? 0 then throw runtime_error else ret tt) ;;
  newPoolStart <- lift (alignPointer newRawPool al) ;;
  let newFreeList := newPoolStart in
  currentBlock <- link_loop newSize bs newFreeList ;;
  write_next currentBlock 0 ;;
  fl <- gets freeList ;;
  write_next currentBlock fl ;;
  modify (with_freeList newFreeList) ;;
  modify (with_totalBlocks newSize).

(** [MemoryPool::allocateBlock()] *)
Definition allocateBlock : M Z :=
  lockPool ;;
  fl <- gets freeList ;;
  (if fl =? 0 then resizePool else ret tt) ;;
  fl <- gets freeList ;;
  if fl =? 0 then
    unlockPool ;;
    ret 0
  else
    let allocated := fl in
    next <- read_next fl ;;
    modify (with_freeList next) ;;
    used <- gets usedBlocks ;;
    modify (with_usedBlocks (wrap (used + 1))) ;;
    unlockPool ;;
    ret allocated.

(** [MemoryPool::deallocateBlock(block)] *)
Definition deallocateBlock (block : Z) : M unit :=
  lockPool ;;
  fl <- gets freeList ;;
  write_next block fl ;;
  modify (with_freeList block) ;;
  unlockPool.

(** [MemoryPool::reset()] *)
Definition reset : M unit :=
  start <- gets poolStart ;;
  modify (with_freeList start) ;;
  modify (with_usedBlocks 0).

(** [MemoryPool::destroyMemoryPool()], the body of the destructor. *)
Definition destroyMemoryPool : M unit :=
  start <- gets poolStart ;;
  operator_delete start ;;
  modify (with_poolStart 0) ;;
  modify (with_freeList 0).

(** ** Reading the free list *)

(** The blocks met from [head] along [next], at most [fuel] of them. *)
Fixpoint free_blocks (fuel : nat) (m : mem) (head : Z) : list Z :=
  match fuel with
  | O => []
  | S k => if head =? 0 then [] else head :: free_blocks k m (load_ptr m head)
  end.

(** [lseg m head bs tail]: following [next] from [head] visits exactly the
    blocks [bs], none of them null, and then reaches [tail]. *)
Fixpoint lseg (m : mem) (head : Z) (bs : list Z) (tail : Z) : Prop :=
  match bs with
  | [] => head = tail
  | b :: bs' => head = b /\ b <> 0 /\ lseg m (load_ptr m b) bs' tail
  end.

(** The free list is exactly [bs]: a segment that ends in [nullptr]. *)
Definition free_list_is (m : mem) (head : Z) (bs : list Z) : Prop :=
  lseg m head bs 0.

(** The addresses of [n] consecutive slots of [blockSize] bytes. *)
Fixpoint slots (start blockSize : Z) (n : nat) : list Z :=
  match n with
  | O => []
  | S k => start :: slots (start + blockSize) blockSize k
  end.

(** A value of the given width that is a power of two. *)
Definition power_of_two (a : Z) : Prop := exists k, 0 <= k /\ a = 2 ^ k.


(** ** Closed forms of the states the calls leave *)

(** The state a successful [initializeMemoryPool] leaves, written out. *)
Definition constructed (bs n a raw : Z) (rest : list (option Z)) (s : state)
  : state :=
  let start := wrap (raw + (a - raw mod a) mod a) in
  {| this := {| spinlock := {| lock := false |}; freeList := start;
                poolStart := start; blockSize := bs; totalBlocks := n;
                usedBlocks := usedBlocks (this s); alignment := a |};
     heap := store_ptr (snd (link_blocks (rounds n) bs start (heap s)))
               (fst (link_blocks (rounds n) bs start (heap s))) 0;
     new_results := rest;
     reserved := (raw, region_bytes bs n a) :: reserved s;
     deleted := deleted s |}.

(** The state a successful [resizePool] leaves, written out. *)
Definition resized (raw : Z) (rest : list (option Z)) (s : state) : state :=
  let p := this s in
  let newSize := wrap (totalBlocks p + totalBlocks p / 2) in
  let start := wrap (raw + (alignment p - raw mod alignment p) mod alignment p) in
  let linked := link_blocks (rounds newSize) (blockSize p) start (heap s) in
  {| this := {| spinlock := spinlock p; freeList := start;
                poolStart := poolStart p; blockSize := blockSize p;
                totalBlocks := newSize; usedBlocks := usedBlocks p;
                alignment := alignment p |};
     heap := store_ptr (store_ptr (snd linked) (fst linked) 0)
               (fst linked) (freeList p);
     new_results := rest;
     reserved :=
       (raw, region_bytes (blockSize p) newSize (alignment p)) :: reserved s;
     deleted := deleted s |}.

(** The state [deallocateBlock block] leaves on an unlocked pool. *)
Definition released (block : Z) (s : state) : state :=
  {| this := {| spinlock := {| lock := false |}; freeList := block;
                poolStart := poolStart (this s);
                blockSize := blockSize (this s);
                totalBlocks := totalBlocks (this s);
                usedBlocks := usedBlocks (this s);
                alignment := alignment (this s) |};
     heap := store_ptr (heap s) block (freeList (this s));
     new_results := new_results s;
     reserved := reserved s;
     deleted := deleted s |}.

(** The state [allocateBlock] leaves on an unlocked pool with a free block. *)
Definition popped (s : state) : state :=
  {| this := {| spinlock := {| lock := false |};
                freeList := load_ptr (heap s) (freeList (this s));
                poolStart := poolStart (this s);
                blockSize := blockSize (this s);
                totalBlocks := totalBlocks (this s);
                usedBlocks := wrap (usedBlocks (this s) + 1);
                alignment := alignment (this s) |};
     heap := heap s;
     new_results := new_results s;
     reserved := reserved s;
     deleted := deleted s |}.

(** ** Sequences of calls *)

(** [k] calls of [resizePool] in a row. *)
Fixpoint grow (k : nat) : M unit :=
  match k with
  | O => ret tt
  | S k' => resizePool ;; grow k'
  end.

(** The calls a consumer makes on a constructed pool. *)
Inductive call : Type :=
| Allocate
| Deallocate (block : Z)
| Reset.

(** Runs the calls in order.  Beside the program it keeps the list
    [outstanding] of the blocks that were returned by [allocateBlock] and not
    yet passed to [deallocateBlock] since the last [reset]; the list is
    bookkeeping of the run, the program does not see it. *)
Fixpoint run_calls (cs : list call) (outstanding : list Z) : M (list Z) :=
  match cs with
  | [] => ret outstanding
  | Allocate :: cs' =>
      b <- allocateBlock ;;
      run_calls cs' (if b =? 0 then outstanding else b :: outstanding)
  | Deallocate block :: cs' =>
      deallocateBlock block ;;
      run_calls cs' (filter (fun b => negb (b =? block)) outstanding)
  | Reset :: cs' =>
      reset ;;
      run_calls cs' []
  end.

(** The next [operator new] hands out no region: it throws, or (for an
    allocator that does not throw) it answers null. *)
Definition reservation_fails (s : state) : Prop :=
  match new_results s with
  | [] => True
  | None :: _ => True
  | Some p :: _ => p = 0
  end.

(** The exception a failed reservation ends [resizePool] with. *)
Definition reservation_failure (s : state) : exn :=
  match new_results s with
  | Some _ :: _ => runtime_error
  | _ => bad_alloc
  end.

(** ** Observing outcomes *)

Definition returned {A} (o : outcome A) : option A :=
  match o with
  | Returns a _ => Some a
  | _ => None
  end.

Definition thrown {A} (o : outcome A) : option exn :=
  match o with
  | Throws e _ => Some e
  | _ => None
  end.

Definition final {A} (o : outcome A) : option state :=
  match o with
  | Returns _ s | Throws _ s => Some s
  | Spins => None
  end.

(** A field of the pool object in the final state. *)
Definition field {A B} (f : MemoryPool -> B) (o : outcome A) : option B :=
  option_map (fun s => f (this s)) (final o).

(** The free list read from the final state, at most [fuel] blocks. *)
Definition free_list_of {A} (fuel : nat) (o : outcome A) : option (list Z) :=
  option_map (fun s => free_blocks fuel (heap s) (freeList (this s))) (final o).

(** ** Concrete states *)

(** Storage of a pool object before its constructor ran: every member holds
    whatever was there. *)
Definition indeterminate_pool : MemoryPool :=
  {| spinlock := {| lock := true |}; freeList := 111; poolStart := 222;
     blockSize := 333; totalBlocks := 444; usedBlocks := 7; alignment := 555 |}.

(** A program start: unconstructed pool, memory full of [0xAA], nothing
    reserved, and the given answers of [operator new] to come. *)
Definition start_state (answers : list (option Z)) : state :=
  {| this := indeterminate_pool; heap := fun _ => 170;
     new_results := answers; reserved := []; deleted := [] |}.

(** A pool of two free 16-byte blocks at 4104 and 4120, unlocked, with one
    more answer of [operator new] to come. *)
Definition two_free_blocks : state :=
  {| this := {| spinlock := {| lock := false |}; freeList := 4104;
                poolStart := 4104; blockSize := 16; totalBlocks := 2;
                usedBlocks := 0; alignment := 8 |};
     heap := store_ptr (store_ptr (fun _ => 170) 4104 4120) 4120 0;
     new_results := [Some 8195];
     reserved := [(4099, 39)];
     deleted := [] |}.

(** A pool whose only block is handed out, with no memory left to grow. *)
Definition exhausted_pool : state :=
  {| this := {| spinlock := {| lock := false |}; freeList := 0;
                poolStart := 4104; blockSize := 16; totalBlocks := 1;
                usedBlocks := 1; alignment := 8 |};
     heap := store_ptr (fun _ => 170) 4104 0;
     new_results := [];
     reserved := [(4099, 23)];
     deleted := [] |}.

(** ** Repeated allocation *)

(** [k] calls of [allocateBlock] in a row, with the blocks they returned. *)
Fixpoint allocate_n (k : nat) : M (list Z) :=
  match k with
  | O => ret []
  | S k' =>
      b <- allocateBlock ;;
      bs <- allocate_n k' ;;
      ret (b :: bs)
  end.

(** ** The consumer: [Node] and [SingleLinkedList] *)

(** [struct Node { int data; Node* next; }] laid out for 64-bit pointers:
    [data] in the first four bytes, [next] at offset 8, sixteen bytes in
    all.  A node is built in place, in a block of the pool. *)
Module NodeLayout.

Definition node_bytes : Z := 16.
Definition next_offset : Z := 8.

(** A 32-bit pattern read as an [int]. *)
Definition sint (z : Z) : Z := (z + 2 ^ 31) mod 2 ^ 32 - 2 ^ 31.

Definition int_range (z : Z) : Prop := - 2 ^ 31 <= z < 2 ^ 31.

Definition store_int (m : mem) (a v : Z) : mem :=
  store_bytes m a (encode_le 4 v).

Definition load_int (m : mem) (a : Z) : Z :=
  sint (decode_le (load_bytes m a 4)).

(** [node->data] *)
Definition node_data (m : mem) (node : Z) : Z := load_int m node.

(** [node->next] *)
Definition node_next (m : mem) (node : Z) : Z :=
  load_ptr m (node + next_offset).

(** [node->next = v] *)
Definition set_next (m : mem) (node v : Z) : mem :=
  store_ptr m (node + next_offset) v.

(** [new (block) Node(value)]: [data(value), next(nullptr)]. *)
Definition construct_node (m : mem) (block value : Z) : mem :=
  set_next (store_int m block value) block 0.

End NodeLayout.

Import NodeLayout.

(** The data members of [class SingleLinkedList].  The member [pool] is
    not kept: a state has one pool, and the list uses that one. *)
Record SingleLinkedList : Type := {
  list_spinlock : Spinlock;
  head : Z   (* pointer to the head node *)
}.

(** Result of a call on a list: it returns, it throws, it never comes back
    from a [lockPool], or the bound given for its loops and recursion was too
    small to see it end. *)
Inductive run (A : Type) : Type :=
| Done (a : A) (l : SingleLinkedList) (s : state)
| Raised (e : exn) (l : SingleLinkedList) (s : state)
| Hangs
| Unfinished.
Arguments Done {A} a l s.
Arguments Raised {A} e l s.
Arguments Hangs {A}.
Arguments Unfinished {A}.

Definition L (A : Type) : Type := SingleLinkedList -> state -> run A.

Definition lret {A} (a : A) : L A := fun l s => Done a l s.

Definition lbind {A B} (c : L A) (k : A -> L B) : L B :=
  fun l s => match c l s with
             | Done a l' s' => k a l' s'
             | Raised e l' s' => Raised e l' s'
             | Hangs => Hangs
             | Unfinished => Unfinished
             end.

(** A call on the pool made from the list. *)
Definition on_pool {A} (c : M A) : L A :=
  fun l s => match c s with
             | Returns a s' => Done a l s'
             | Throws e s' => Raised e l s'
             | Spins => Hangs
             end.

(** A loop or recursion over memory that may not end within its bound. *)
Definition bounded {A} (f : mem -> option A) : L A :=
  fun l s => match f (heap s) with
             | Some a => Done a l s
             | None => Unfinished
             end.

Definition get_head : L Z := fun l s => Done (head l) l s.

Definition set_head (v : Z) : L unit :=
  fun l s => Done tt {| list_spinlock := list_spinlock l; head := v |} s.

Definition write_heap (f : mem -> mem) : L unit :=
  fun l s => Done tt l (upd_heap f s).

Definition read_heap {A} (f : mem -> A) : L A :=
  fun l s => Done (f (heap s)) l s.

Definition lock_list : L unit :=
  fun l s => if lock (list_spinlock l) then Hangs
             else Done tt {| list_spinlock := {| lock := true |};
                             head := head l |} s.

Definition unlock_list : L unit :=
  fun l s => Done tt {| list_spinlock := {| lock := false |};
                        head := head l |} s.

Notation "x <~ c1 ;; c2" := (lbind c1 (fun x => c2))
  (at level 61, c1 at next level, right associativity) : pool_scope.
Notation "c1 ;;; c2" := (lbind c1 (fun _ => c2))
  (at level 61, right associativity) : pool_scope.

(** The constructor [SingleLinkedList(memoryPool)]: [head(nullptr)]. *)
Definition SingleLinkedList_ctor : SingleLinkedList :=
  {| list_spinlock := {| lock := false |}; head := 0 |}.

(** The loop of [getLength]: [while (current != nullptr) { length++;
    current = current->next; }] with [length] an [int]. *)
Fixpoint length_loop (bound : nat) (m : mem) (current length : Z)
  : option Z :=
  match bound with
  | O => None
  | S k =>
      if current =? 0 then Some length
      else length_loop k m (node_next m current) (sint (length + 1))
  end.

(** [SingleLinkedList::getLength()] *)
Definition getLength (bound : nat) : L Z :=
  h <~ get_head ;;
  bounded (fun m => length_loop bound m h 0).

(** The loop of [insert]: [while (current->next != nullptr) current =
    current->next;] *)
Fixpoint last_loop (bound : nat) (m : mem) (current : Z) : option Z :=
  match bound with
  | O => None
  | S k =>
      if node_next m current =? 0 then Some current
      else last_loop k m (node_next m current)
  end.

(** [SingleLinkedList::insert(value)].  The line printed when the pool
    returned null is left out. *)
Definition insert (bound : nat) (value : Z) : L unit :=
  block <~ on_pool allocateBlock ;;
  if block =? 0 then lret tt
  else
    write_heap (fun m => construct_node m block value) ;;;
    let newNode := block in
    h <~ get_head ;;
    if h =? 0 then set_head newNode
    else
      current <~ bounded (fun m => last_loop bound m h) ;;
      write_heap (fun m => set_next m current newNode).

(** The loop of [remove]: [while (current != nullptr && current->data !=
    value) { previous = current; current = current->next; }], giving
    [(current, previous)]. *)
Fixpoint find_loop (bound : nat) (m : mem) (current previous value : Z)
  : option (Z * Z) :=
  match bound with
  | O => None
  | S k =>
      if negb (current =? 0) && negb (node_data m current =? value)
      then find_loop k m (node_next m current) current value
      else Some (current, previous)
  end.

(** [SingleLinkedList::remove(value)].  The lines printed are left out. *)
Definition remove (bound : nat) (value : Z) : L unit :=
  h <~ get_head ;;
  if h =? 0 then lret tt
  else
    found <~ bounded (fun m => find_loop bound m h 0 value) ;;
    let '(current, previous) := found in
    if current =? 0 then lret tt
    else
      h <~ get_head ;;
      (if current =? h
       then next <~ read_heap (fun m => node_next m h) ;; set_head next
       else write_heap (fun m => set_next m previous (node_next m current))) ;;;
      on_pool (deallocateBlock current).

(** The loop of [clear] and of the destructor: [while (current != nullptr)
    { temp = current; current = current->next; deallocateBlock(temp); }] *)
Fixpoint release_loop (bound : nat) (current : Z) : L unit :=
  match bound with
  | O => fun _ _ => Unfinished
  | S k =>
      if current =? 0 then lret tt
      else
        let temp := current in
        next <~ read_heap (fun m => node_next m current) ;;
        on_pool (deallocateBlock temp) ;;;
        release_loop k next
  end.

(** [SingleLinkedList::clear()] *)
Definition clear (bound : nat) : L unit :=
  lock_list ;;;
  current <~ get_head ;;
  release_loop bound current ;;;
  set_head 0 ;;;
  unlock_list.

(** [SingleLinkedList::~SingleLinkedList()]; [temp->~Node()] does nothing. *)
Definition SingleLinkedList_dtor (bound : nat) : L unit :=
  lock_list ;;;
  current <~ get_head ;;
  release_loop bound current ;;;
  unlock_list.

(** The loop of [display], with the numbers it prints, in order. *)
Fixpoint display_loop (bound : nat) (m : mem) (current : Z)
  : option (list Z) :=
  match bound with
  | O => None
  | S k =>
      if current =? 0 then Some []
      else option_map (cons (node_data m current))
             (display_loop k m (node_next m current))
  end.

(** [SingleLinkedList::display()]: the value is what goes to [std::cout]. *)
Definition display (bound : nat) : L (list Z) :=
  h <~ get_head ;;
  bounded (fun m => display_loop bound m h).

(** [SingleLinkedList::merge(left, right)], with the memory it leaves;
    [bound] limits the depth of the recursion. *)
Fixpoint merge (bound : nat) (m : mem) (left right : Z) : option (Z * mem) :=
  match bound with
  | O => None
  | S k =>
      if left =? 0 then Some (right, m)
      else if right =? 0 then Some (left, m)
      else if node_data m left <=? node_data m right then
        match merge k m (node_next m left) right with
        | Some (merged, m') => Some (left, set_next m' left merged)
        | None => None
        end
      else
        match merge k m left (node_next m right) with
        | Some (merged, m') => Some (right, set_next m' right merged)
        | None => None
        end
  end.

(** The loop of [getMiddle]: [while (fast != nullptr && fast->next !=
    nullptr) { slow = slow->next; fast = fast->next->next; }] *)
Fixpoint middle_loop (bound : nat) (m : mem) (slow fast : Z) : option Z :=
  match bound with
  | O => None
  | S k =>
      if negb (fast =? 0) && negb (node_next m fast =? 0)
      then middle_loop k m (node_next m slow)
             (node_next m (node_next m fast))
      else Some slow
  end.

(** [SingleLinkedList::getMiddle(node)] *)
Definition getMiddle_node (bound : nat) (m : mem) (node : Z) : option Z :=
  if (node =? 0) || (node_next m node =? 0) then Some node
  else middle_loop bound m node (node_next m node).

(** [SingleLinkedList::mergeSort(node)], with the memory it leaves;
    [depth] limits its own recursion, [bound] the loops and recursion it
    calls. *)
Fixpoint mergeSort_rec (bound depth : nat) (m : mem) (node : Z)
  : option (Z * mem) :=
  match depth with
  | O => None
  | S d =>
      if (node =? 0) || (node_next m node =? 0) then Some (node, m)
      else
        match getMiddle_node bound m node with
        | None => None
        | Some middle =>
            let secondHalf := node_next m middle in
            let m1 := set_next m middle 0 in
            match mergeSort_rec bound d m1 node with
            | None => None
            | Some (leftSorted, m2) =>
                match mergeSort_rec bound d m2 secondHalf with
                | None => None
                | Some (rightSorted, m3) =>
                    merge bound m3 leftSorted rightSorted
                end
            end
        end
  end.

Definition mergeSort_node (bound : nat) (m : mem) (node : Z)
  : option (Z * mem) :=
  mergeSort_rec bound bound m node.

(** [SingleLinkedList::getMiddle()] *)
Definition getMiddle (bound : nat) : L Z :=
  h <~ get_head ;;
  bounded (fun m => getMiddle_node bound m h).

(** [SingleLinkedList::mergeSort()]: [head = mergeSort(head)]. *)
Definition mergeSort (bound : nat) : L unit :=
  fun l s =>
    match mergeSort_node bound (heap s) (head l) with
    | Some (h, m) =>
        Done tt {| list_spinlock := list_spinlock l; head := h |}
          (upd_heap (fun _ => m) s)
    | None => Unfinished
    end.

(** ** Reading a list of nodes *)

(** [list_seg m h ns t]: following [next] from node [h] visits exactly the
    nodes [ns], none of them null, and then reaches [t]. *)
Fixpoint list_seg (m : mem) (h : Z) (ns : list Z) (t : Z) : Prop :=
  match ns with
  | [] => h = t
  | p :: ns' => h = p /\ p <> 0 /\ list_seg m (node_next m p) ns' t
  end.

(** The list that starts at [h] is exactly the nodes [ns]. *)
Definition list_at (m : mem) (h : Z) (ns : list Z) : Prop :=
  list_seg m h ns 0.

(** The numbers held by the nodes [ns]. *)
Definition values (m : mem) (ns : list Z) : list Z := map (node_data m) ns.

(** Two blocks of sixteen bytes that do not overlap. *)
Definition apart (p q : Z) : Prop :=
  p + node_bytes <= q \/ q + node_bytes <= p.

(** Blocks that are pairwise apart. *)
Fixpoint all_apart (ps : list Z) : Prop :=
  match ps with
  | [] => True
  | p :: ps' => (forall q, In q ps' -> apart p q) /\ all_apart ps'
  end.

(** Merging two lists by a key, as [merge] does on nodes: the head of the
    left list goes first unless its key is greater. *)
Fixpoint merge_by (key : Z -> Z) (l1 : list Z) : list Z -> list Z :=
  fix merge_right (l2 : list Z) : list Z :=
    match l1, l2 with
    | [], _ => l2
    | _, [] => l1
    | a :: l1', b :: l2' =>
        if key a <=? key b then a :: merge_by key l1' l2
        else b :: merge_right l2'
    end.

(** [m'] is [m] except for the [next] fields of the nodes [ns]. *)
Definition links_only (ns : list Z) (m m' : mem) : Prop :=
  forall x, (forall p, In p ns -> x < p + next_offset \/ p + node_bytes <= x) ->
            m' x = m x.

(** ** A concrete list *)

(** Memory with four 16-byte blocks at 4112, 4128, 4144 and 4160: the first
    two hold the nodes of the list 3, 1; the other two are linked as free
    blocks. *)
Definition two_nodes_heap : mem :=
  set_next
    (construct_node
       (construct_node
          (store_ptr (store_ptr (fun _ => 170) 4144 4160) 4160 0)
          4112 3)
       4128 1)
    4112 4128.

(** The pool of these four blocks, two of them free. *)
Definition pool_with_two_nodes : state :=
  {| this := {| spinlock := {| lock := false |}; freeList := 4144;
                poolStart := 4112; blockSize := 16; totalBlocks := 4;
                usedBlocks := 2; alignment := 16 |};
     heap := two_nodes_heap;
     new_results := [];
     reserved := [(4099, 79)];
     deleted := [] |}.

(** The list of the two nodes. *)
Definition list_of_two : SingleLinkedList :=
  {| list_spinlock := {| lock := false |}; head := 4112 |}.

(** A pool of four 16-byte blocks, all handed out, with one answer of
    [operator new] to come. *)
Definition exhausted_pool_of_four : state :=
  {| this := {| spinlock := {| lock := false |}; freeList := 0;
                poolStart := 4112; blockSize := 16; totalBlocks := 4;
                usedBlocks := 4; alignment := 16 |};
     heap := store_ptr (fun _ => 170) 4160 0;
     new_results := [Some 8195];
     reserved := [(4099, 79)];
     deleted := [] |}.

(** ** Facts about words and memory *)

Module WordFacts.

Lemma modulus_eq : modulus = 18446744073709551616.
Proof. reflexivity. Qed.

Lemma modulus_pos : 0 < modulus.
Proof. rewrite modulus_eq. lia. Qed.

Lemma wrap_range z : 0 <= wrap z < modulus.
Proof. unfold wrap. apply Z.mod_pos_bound, modulus_pos. Qed.

Lemma wrap_small z : 0 <= z < modulus -> wrap z = z.
Proof. intros H. unfold wrap. now apply Z.mod_small. Qed.

End WordFacts.

Import WordFacts.

Module MemoryFacts.

Lemma encode_le_length n v : length (encode_le n v) = n.
Proof. revert v. induction n; intros; simpl; auto. Qed.

Lemma decode_encode_le n v :
  decode_le (encode_le n v) = v mod 256 ^ Z.of_nat n.
Proof.
  revert v. induction n as [|n IH]; intros v.
  - simpl. now rewrite Z.mod_1_r.
  - cbn [encode_le decode_le]. rewrite IH.
    rewrite Nat2Z.inj_succ, Z.pow_succ_r by lia.
    rewrite Z.rem_mul_r by lia. lia.
Qed.

Lemma store_bytes_outside m a bs x :
  x < a \/ a + Z.of_nat (length bs) <= x ->
  store_bytes m a bs x = m x.
Proof.
  revert m a. induction bs as [|b bs IH]; intros m a H; simpl; auto.
  rewrite IH by (simpl length in H; lia).
  unfold store_byte. destruct (Z.eqb_spec x a); auto.
  simpl length in H. lia.
Qed.

Lemma load_bytes_ext m1 m2 a n :
  (forall x, a <= x < a + Z.of_nat n -> m1 x = m2 x) ->
  load_bytes m1 a n = load_bytes m2 a n.
Proof.
  revert a. induction n as [|n IH]; intros a H; simpl; auto.
  f_equal.
  - unfold load_byte. rewrite H by lia. reflexivity.
  - apply IH. intros x Hx. apply H. lia.
Qed.

Lemma load_store_bytes m a bs :
  load_bytes (store_bytes m a bs) a (length bs) = map (fun b => b mod 256) bs.
Proof.
  revert m a. induction bs as [|b bs IH]; intros m a; simpl; auto.
  f_equal.
  - unfold load_byte. rewrite store_bytes_outside by lia.
    unfold store_byte. now rewrite Z.eqb_refl.
  - apply IH.
Qed.

Lemma encode_le_bytes n v :
  map (fun b => b mod 256) (encode_le n v) = encode_le n v.
Proof.
  revert v. induction n as [|n IH]; intros v; simpl; auto.
  rewrite IH. f_equal. apply Z.mod_mod. lia.
Qed.

Lemma load_store_same m a v : load_ptr (store_ptr m a v) a = wrap v.
Proof.
  unfold load_ptr, store_ptr.
  change 8%nat with (length (encode_le 8 v)) at 2.
  rewrite load_store_bytes, encode_le_bytes, decode_encode_le.
  reflexivity.
Qed.

Lemma load_store_other m a v b :
  b + ptr_bytes <= a \/ a + ptr_bytes <= b ->
  load_ptr (store_ptr m a v) b = load_ptr m b.
Proof.
  intros H. unfold load_ptr, store_ptr. f_equal.
  apply load_bytes_ext. intros x Hx.
  apply store_bytes_outside. rewrite encode_le_length.
  unfold ptr_bytes in H. lia.
Qed.

Lemma load_ptr_ext m1 m2 a :
  (forall x, a <= x < a + ptr_bytes -> m1 x = m2 x) ->
  load_ptr m1 a = load_ptr m2 a.
Proof.
  intros H. unfold load_ptr. f_equal. now apply load_bytes_ext.
Qed.

Lemma store_ptr_outside m a v x :
  x < a \/ a + ptr_bytes <= x -> store_ptr m a v x = m x.
Proof.
  intros H. unfold store_ptr. apply store_bytes_outside.
  rewrite encode_le_length. unfold ptr_bytes in H. lia.
Qed.

Lemma decode_le_range bs :
  Forall (fun b => 0 <= b < 256) bs ->
  0 <= decode_le bs < 256 ^ Z.of_nat (length bs).
Proof.
  induction 1 as [|b bs Hb _ IH].
  - simpl. lia.
  - cbn [decode_le length]. rewrite Nat2Z.inj_succ, Z.pow_succ_r by lia.
    set (d := decode_le bs) in *.
    set (X := 256 ^ Z.of_nat (length bs)) in *. lia.
Qed.

Lemma load_bytes_range m a n :
  Forall (fun b => 0 <= b < 256) (load_bytes m a n).
Proof.
  revert a. induction n; intros a; simpl; constructor; auto.
  unfold load_byte. apply Z.mod_pos_bound. lia.
Qed.

Lemma load_bytes_length m a n : length (load_bytes m a n) = n.
Proof. revert a. induction n; intros; simpl; auto. Qed.

Lemma load_ptr_range m a : 0 <= load_ptr m a < modulus.
Proof.
  unfold load_ptr.
  pose proof (decode_le_range _ (load_bytes_range m a 8)) as H.
  rewrite load_bytes_length in H. exact H.
Qed.

End MemoryFacts.

Import MemoryFacts.

(** ** Alignment *)

Section Alignment.

Lemma power_of_two_pos a : power_of_two a -> 0 < a.
Proof. intros [k [Hk ->]]. now apply Z.pow_pos_nonneg. Qed.

Lemma land_pred_pow2 k : 0 <= k -> Z.land (2 ^ k) (2 ^ k - 1) = 0.
Proof.
  intros Hk. apply Z.bits_inj'. intros n Hn.
  rewrite Z.land_spec, Z.bits_0, Z.pow2_bits_eqb by lia.
  destruct (Z.eqb_spec k n) as [->|Hne]; [|reflexivity].
  replace (2 ^ n - 1) with (Z.ones n) by (rewrite Z.ones_equiv; lia).
  rewrite Z.ones_spec_high by lia. reflexivity.
Qed.

Lemma land_pred_zero_pow2 a :
  0 < a -> Z.land a (a - 1) = 0 -> power_of_two a.
Proof.
  intros Ha Hland.
  pose proof (Z.log2_nonneg a) as Hk.
  pose proof (Z.log2_spec a Ha) as [Hlo Hhi].
  exists (Z.log2 a). split; [assumption|].
  destruct (Z.eq_dec a (2 ^ Z.log2 a)) as [|Hne]; [assumption|exfalso].
  assert (Hpred : Z.log2 (a - 1) = Z.log2 a).
  { apply Z.log2_unique; [assumption|].
    replace (Z.succ (Z.log2 a)) with (Z.log2 a + 1) in * by lia. lia. }
  assert (Hbit : Z.testbit (Z.land a (a - 1)) (Z.log2 a) = true).
  { rewrite Z.land_spec, Z.bit_log2 by assumption.
    rewrite <- Hpred. rewrite Z.bit_log2; [reflexivity|].
    assert (0 < 2 ^ Z.log2 a) by (apply Z.pow_pos_nonneg; lia). lia. }
  rewrite Hland, Z.bits_0 in Hbit. discriminate.
Qed.

(** The test of [alignPointer] accepts exactly the powers of two. *)
Lemma alignment_test a :
  in_range a ->
  ((a =? 0) || negb (Z.land a (wrap (a - 1)) =? 0) = false <-> power_of_two a).
Proof.
  intros Ha. unfold in_range in Ha. split.
  - intros H. apply orb_false_elim in H as [H0 H1].
    apply Z.eqb_neq in H0. apply negb_false_iff, Z.eqb_eq in H1.
    rewrite wrap_small in H1 by lia.
    apply land_pred_zero_pow2; [lia|assumption].
  - intros Hp. pose proof (power_of_two_pos _ Hp) as Hpos.
    destruct Hp as [k [Hk ->]].
    rewrite wrap_small by lia. rewrite land_pred_pow2 by assumption.
    apply orb_false_intro; [apply Z.eqb_neq; lia|reflexivity].
Qed.

Lemma power_of_two_divides_modulus a :
  power_of_two a -> a < modulus -> exists c, modulus = c * a.
Proof.
  intros [k [Hk ->]] Hlt.
  assert (k < width).
  { apply (Z.pow_lt_mono_r_iff 2); unfold width; [lia|lia|exact Hlt]. }
  exists (2 ^ (width - k)). unfold modulus.
  rewrite <- Z.pow_add_r by lia. f_equal. lia.
Qed.

Lemma alignPointer_value p a :
  in_range a -> power_of_two a ->
  alignPointer p a = Val (wrap (p + (a - p mod a) mod a)).
Proof.
  intros Ha Hp. unfold alignPointer.
  apply (alignment_test a Ha) in Hp. rewrite Hp. reflexivity.
Qed.

(** The two ways [alignPointer] ends. *)
Lemma alignPointer_cases ptr a :
  in_range a ->
  (power_of_two a /\ exists r, alignPointer ptr a = Val r) \/
  (~ power_of_two a /\ alignPointer ptr a = Exn invalid_argument).
Proof.
  intros Ha. pose proof (alignment_test a Ha) as Htest.
  unfold alignPointer.
  destruct ((a =? 0) || negb (Z.land a (wrap (a - 1)) =? 0)) eqn:E.
  - right. split; [|reflexivity].
    intros Hp. apply Htest in Hp. discriminate.
  - left. split; [now apply Htest|]. eexists. reflexivity.
Qed.

Lemma aligned_multiple p a :
  0 < a -> (p + (a - p mod a) mod a) mod a = 0.
Proof.
  intros Ha. rewrite Z.add_mod_idemp_r by lia.
  replace (p + (a - p mod a)) with (p - p mod a + 1 * a) by lia.
  rewrite Z.mod_add by lia.
  rewrite Zminus_mod_idemp_r, Z.sub_diag. apply Z.mod_0_l. lia.
Qed.

Lemma wrap_multiple z a :
  power_of_two a -> a < modulus -> z mod a = 0 -> wrap z mod a = 0.
Proof.
  intros Hp Hlt Hz. pose proof (power_of_two_pos _ Hp) as Hpos.
  destruct (power_of_two_divides_modulus a Hp Hlt) as [c Hc].
  unfold wrap. rewrite Hc.
  assert (0 < c) by (pose proof modulus_pos; nia).
  rewrite Z.mul_comm, Z.rem_mul_r by lia.
  rewrite Z.add_mod, Hz by lia.
  rewrite Z.mul_comm, Z.mod_mul by lia. reflexivity.
Qed.

Lemma adjustment_bounds p a :
  0 < a -> 0 <= (a - p mod a) mod a < a.
Proof. intros Ha. apply Z.mod_pos_bound. lia. Qed.

Lemma aligned_least p a q :
  0 < a -> p <= q -> q mod a = 0 -> p + (a - p mod a) mod a <= q.
Proof.
  intros Ha Hpq Hq.
  pose proof (aligned_multiple p a Ha) as Hr.
  pose proof (adjustment_bounds p a Ha) as Hadj.
  set (adj := (a - p mod a) mod a) in *.
  apply Z.mod_divide in Hq; [|lia]. destruct Hq as [cq Hq].
  apply Z.mod_divide in Hr; [|lia]. destruct Hr as [cr Hr].
  destruct (Z_le_gt_dec cr cq) as [Hle|Hgt]; [nia|exfalso].
  assert ((cq + 1) * a <= cr * a) by (apply Z.mul_le_mono_nonneg_r; lia).
  lia.
Qed.

End Alignment.

(** ** Running the calls *)

Ltac run :=
  unfold MemoryPool_ctor, initializeMemoryPool, resizePool, allocateBlock,
    deallocateBlock, reset, destroyMemoryPool, link_loop, lockPool,
    unlockPool, operator_new, operator_delete, read_next, write_next,
    bind, ret, throw, gets, modify, lift, upd_this, upd_heap,
    with_spinlock, with_freeList, with_poolStart, with_blockSize,
    with_totalBlocks, with_usedBlocks, with_alignment;
  cbn [this heap new_results reserved deleted spinlock freeList poolStart
       blockSize totalBlocks usedBlocks alignment lock].

Section Runs.

Lemma ctor_run bs n a raw rest s :
  new_results s = Some raw :: rest ->
  in_range a -> power_of_two a ->
  MemoryPool_ctor bs n a s = Returns tt (constructed bs n a raw rest s).
Proof.
  intros Hnew Ha Hp. run. rewrite Hnew.
  rewrite (alignPointer_value raw a Ha Hp). cbn [lift]. run.
  unfold constructed.
  destruct (link_blocks (rounds n) bs _ (heap s)) as [last m].
  reflexivity.
Qed.

Lemma resizePool_run raw rest s :
  new_results s = Some raw :: rest ->
  raw <> 0 ->
  in_range (alignment (this s)) -> power_of_two (alignment (this s)) ->
  resizePool s = Returns tt (resized raw rest s).
Proof.
  intros Hnew Hraw Ha Hp. run. rewrite Hnew.
  apply Z.eqb_neq in Hraw. rewrite Hraw.
  rewrite (alignPointer_value raw _ Ha Hp). cbn [lift]. run.
  unfold resized. cbn zeta.
  destruct (link_blocks _ (blockSize (this s)) _ (heap s)) as [last m].
  reflexivity.
Qed.

(** [resizePool] when the reservation fails: the exception leaves it. *)
Lemma resizePool_bad_alloc s :
  new_results s = [] \/ (exists rest, new_results s = None :: rest) ->
  exists s', resizePool s = Throws bad_alloc s' /\ this s' = this s.
Proof.
  intros [Hnew|[rest Hnew]]; run; rewrite Hnew; eexists; split; reflexivity.
Qed.

Lemma resizePool_null s rest :
  new_results s = Some 0 :: rest ->
  exists s', resizePool s = Throws runtime_error s' /\ this s' = this s.
Proof.
  intros Hnew. run. rewrite Hnew. cbn. eexists; split; reflexivity.
Qed.

End Runs.

(** ** The linking loop and the chains it builds *)

Section Chains.

Lemma lseg_app m h l1 mid l2 t :
  lseg m h l1 mid -> lseg m mid l2 t -> lseg m h (l1 ++ l2) t.
Proof.
  revert h. induction l1 as [|b l1 IH]; intros h H1 H2; simpl in *.
  - now subst.
  - destruct H1 as [Hh [Hb Hrest]]. repeat split; auto.
Qed.

(** A segment only depends on the [next] fields of its own blocks. *)
Lemma lseg_frame m m' h l t :
  (forall b, In b l -> load_ptr m' b = load_ptr m b) ->
  lseg m h l t -> lseg m' h l t.
Proof.
  revert h. induction l as [|b l IH]; intros h Hsame H; simpl in *; auto.
  destruct H as [Hh [Hb Hrest]]. repeat split; auto.
  rewrite Hsame by auto. apply IH; auto.
Qed.

Lemma lseg_free_blocks m h l :
  lseg m h l 0 -> free_blocks (S (length l)) m h = l.
Proof.
  revert h. induction l as [|b l IH]; intros h H; simpl in H.
  - subst. reflexivity.
  - destruct H as [-> [Hb Hrest]].
    change (free_blocks (S (length (b :: l))) m b)
      with (if b =? 0 then []
            else b :: free_blocks (S (length l)) m (load_ptr m b)).
    apply Z.eqb_neq in Hb. rewrite Hb. f_equal. now apply IH.
Qed.

Lemma slots_length start bs n : length (slots start bs n) = n.
Proof. revert start. induction n; intros; simpl; auto. Qed.

Lemma slots_nth start bs n i :
  (i < n)%nat -> nth i (slots start bs n) 0 = start + Z.of_nat i * bs.
Proof.
  revert start i. induction n as [|n IH]; intros start i Hi; [lia|].
  destruct i as [|i]; simpl slots; cbn [nth].
  - lia.
  - rewrite IH by lia. lia.
Qed.

Lemma slots_In start bs n b :
  In b (slots start bs n) ->
  exists i, (i < n)%nat /\ b = start + Z.of_nat i * bs.
Proof.
  revert start. induction n as [|n IH]; intros start H; simpl in H; [easy|].
  destruct H as [<-|H].
  - exists O. split; lia.
  - apply IH in H as [i [Hi ->]]. exists (S i). split; lia.
Qed.

(** What the loop leaves: it stops [iters] slots further, writes nothing
    outside the slots it walked over, and each of them points to the next. *)
Lemma link_blocks_spec iters bs cur m :
  ptr_bytes <= bs -> 0 <= cur -> cur + Z.of_nat iters * bs < modulus ->
  fst (link_blocks iters bs cur m) = cur + Z.of_nat iters * bs /\
  (forall x, x < cur \/ cur + Z.of_nat iters * bs <= x ->
             snd (link_blocks iters bs cur m) x = m x) /\
  (forall i, (i < iters)%nat ->
             load_ptr (snd (link_blocks iters bs cur m))
                      (cur + Z.of_nat i * bs)
             = cur + Z.of_nat (S i) * bs).
Proof.
  unfold ptr_bytes. intros Hbs.
  revert cur m. induction iters as [|k IH]; intros cur m Hcur Hfit.
  - cbn [link_blocks fst snd]. split; [lia|]. split; [auto|intros; lia].
  - cbn [link_blocks].
    assert (Hnext : load_ptr (store_ptr m cur (wrap (cur + bs))) cur = cur + bs).
    { rewrite load_store_same. unfold wrap. rewrite Z.mod_mod by (pose proof modulus_pos; lia).
      apply Z.mod_small. nia. }
    rewrite Hnext.
    destruct (IH (cur + bs) (store_ptr m cur (wrap (cur + bs))))
      as [Hlast [Hout Hlinks]]; [lia|nia|].
    split; [rewrite Hlast; lia|]. split.
    + intros x Hx. rewrite Hout by nia.
      apply store_ptr_outside. unfold ptr_bytes. nia.
    + intros [|i] Hi.
      * rewrite Z.mul_0_l, Z.add_0_r.
        transitivity (load_ptr (store_ptr m cur (wrap (cur + bs))) cur);
          [|rewrite Hnext; lia].
        apply load_ptr_ext.
        intros x Hx. apply Hout. unfold ptr_bytes in Hx. lia.
      * replace (cur + Z.of_nat (S i) * bs)
          with (cur + bs + Z.of_nat i * bs) by lia.
        rewrite Hlinks by lia. lia.
Qed.

(** Slots that point each to the next form a segment that ends where the
    next slot would start. *)
Lemma lseg_slots m bs n start :
  0 < start -> 0 <= bs ->
  (forall i, (i < n)%nat ->
             load_ptr m (start + Z.of_nat i * bs) = start + Z.of_nat (S i) * bs) ->
  lseg m start (slots start bs n) (start + Z.of_nat n * bs).
Proof.
  intros Hstart Hbs. revert start Hstart.
  induction n as [|n IH]; intros start Hstart Hlinks; simpl slots; cbn [lseg].
  - lia.
  - split; [reflexivity|]. split; [lia|].
    pose proof (Hlinks O ltac:(lia)) as H0.
    rewrite Z.mul_0_l, Z.add_0_r in H0. rewrite H0.
    replace (start + Z.of_nat 1 * bs) with (start + bs) by lia.
    replace (start + Z.of_nat (S n) * bs)
      with (start + bs + Z.of_nat n * bs) by lia.
    apply IH; [lia|]. intros i Hi.
    replace (start + bs + Z.of_nat i * bs)
      with (start + Z.of_nat (S i) * bs) by lia.
    rewrite Hlinks by lia. lia.
Qed.

Lemma slots_snoc start bs n :
  slots start bs (S n) = slots start bs n ++ [start + Z.of_nat n * bs].
Proof.
  revert start. induction n as [|n IH]; intros start.
  - simpl. f_equal. lia.
  - change (slots start bs (S (S n)))
      with (start :: slots (start + bs) bs (S n)).
    rewrite IH. cbn [slots app]. do 2 f_equal.
    replace (start + bs + Z.of_nat n * bs)
      with (start + Z.of_nat (S n) * bs) by lia.
    reflexivity.
Qed.

Lemma region_bytes_small bs n a :
  0 <= bs * n -> 0 < a -> bs * n + a - 1 < modulus ->
  region_bytes bs n a = bs * n + a - 1.
Proof.
  intros H1 H2 H3. unfold region_bytes, wrap.
  rewrite Zminus_mod_idemp_l.
  replace (bs * n mod modulus + a - 1) with (bs * n mod modulus + (a - 1))
    by lia.
  rewrite Zplus_mod_idemp_l. rewrite Z.mod_small; lia.
Qed.

End Chains.

Section Layout.

(** The region once the loop has run and the last slot has been given its
    link [v]: the [n] slots from [start] form a segment that ends in [v],
    and nothing outside the slots was written.  [m2] is any memory that
    differs from the loop's result in the last slot's link only. *)
Lemma sealed_chain m m2 bs n start v :
  ptr_bytes <= bs -> 1 <= n -> 0 < start -> start + n * bs <= modulus ->
  load_ptr m2 (fst (link_blocks (rounds n) bs start m)) = v ->
  (forall x, x < fst (link_blocks (rounds n) bs start m)
             \/ fst (link_blocks (rounds n) bs start m) + ptr_bytes <= x ->
             m2 x = snd (link_blocks (rounds n) bs start m) x) ->
  fst (link_blocks (rounds n) bs start m) = start + (n - 1) * bs /\
  lseg m2 start (slots start bs (Z.to_nat n)) v /\
  (forall i, 0 <= i < n - 1 ->
             load_ptr m2 (start + i * bs) = start + (i + 1) * bs) /\
  (forall x, x < start \/ start + n * bs <= x -> m2 x = m x).
Proof.
  intros Hbs Hn Hstart Hfit Hv Hm2. unfold ptr_bytes in *.
  assert (Hk : Z.of_nat (rounds n) = n - 1) by (unfold rounds; lia).
  destruct (link_blocks_spec (rounds n) bs start m)
    as [Hlast [Hout Hlinks]]; [unfold ptr_bytes; lia|lia|nia|].
  rewrite Hk in *. rewrite Hlast in *.
  assert (Hlinks2 : forall i, (i < rounds n)%nat ->
            load_ptr m2 (start + Z.of_nat i * bs)
            = start + Z.of_nat (S i) * bs).
  { intros i Hi. rewrite <- Hlinks by assumption.
    apply load_ptr_ext. intros x Hx. apply Hm2.
    unfold ptr_bytes in Hx. left. nia. }
  split; [reflexivity|]. split; [|split].
  - replace (Z.to_nat n) with (S (rounds n)) by (unfold rounds; lia).
    rewrite slots_snoc.
    apply lseg_app with (mid := start + Z.of_nat (rounds n) * bs).
    + apply lseg_slots; [lia|lia|exact Hlinks2].
    + rewrite Hk. cbn [lseg]. split; [reflexivity|]. split; [nia|exact Hv].
  - intros i Hi.
    replace i with (Z.of_nat (Z.to_nat i)) by lia.
    rewrite Hlinks2 by (unfold rounds; lia). lia.
  - intros x Hx. rewrite Hm2 by nia. apply Hout. nia.
Qed.

(** The start of the slots inside a region that fits the address space. *)
Lemma aligned_start raw a :
  0 < a -> 0 < raw -> raw + (a - 1) < modulus ->
  wrap (raw + (a - raw mod a) mod a) = raw + (a - raw mod a) mod a /\
  raw <= raw + (a - raw mod a) mod a <= raw + (a - 1).
Proof.
  intros Ha Hraw Hfit.
  pose proof (adjustment_bounds raw a Ha) as Hadj.
  split; [apply wrap_small|]; lia.
Qed.

End Layout.

(** ** The alignment utility *)

(** C6: for an alignment argument of type [size_t], [alignPointer] throws
    [std::invalid_argument] exactly when the alignment is zero or not a power
    of two, and it produces a result exactly when the alignment is a power of
    two: a bad alignment never yields a value. *)
Theorem alignPointer_invalid_iff ptr a :
  in_range a ->
  (alignPointer ptr a = Exn invalid_argument <-> a = 0 \/ ~ power_of_two a) /\
  ((exists r, alignPointer ptr a = Val r) <-> power_of_two a).
Proof.
  intros Ha.
  destruct (alignPointer_cases ptr a Ha) as [[Hp [r Hr]]|[Hnot Hexn]].
  - rewrite Hr. split; split.
    + discriminate.
    + intros [->|Hn]; [|contradiction].
      apply power_of_two_pos in Hp. lia.
    + intros _. exact Hp.
    + intros _. now exists r.
  - rewrite Hexn. split; split.
    + intros _. now right.
    + reflexivity.
    + intros [r Hr]. discriminate.
    + intros Hp. contradiction.
Qed.

Lemma alignPointer_invalid_iff_witness :
  (alignPointer 4099 12 = Exn invalid_argument
   <-> 12 = 0 \/ ~ power_of_two 12) /\
  ((exists r, alignPointer 4099 12 = Val r) <-> power_of_two 12).
Proof.
  apply (alignPointer_invalid_iff 4099 12).
  split; [discriminate | reflexivity].
Defined.

(** C5, as the code has it: for every address [p] and every power-of-two
    alignment [a], [alignPointer] returns a multiple of [a]; when the next
    multiple of [a] at or after [p] is an address at all
    ([p + a <= 2^64]), the result is the smallest multiple of [a] that is at
    least [p]; and a pool constructed with alignment [a] on a region that
    [operator new] handed out has a start address that is a multiple of
    [a]. *)
Theorem alignPointer_smallest_multiple p a bs n raw rest s :
  in_range p -> in_range a -> power_of_two a ->
  new_results s = Some raw :: rest ->
  (exists r, alignPointer p a = Val r /\ in_range r /\ r mod a = 0 /\
             (p + a <= modulus ->
              p <= r /\ forall q, p <= q -> q mod a = 0 -> r <= q)) /\
  (exists s', MemoryPool_ctor bs n a s = Returns tt s' /\
              alignPointer raw a = Val (poolStart (this s')) /\
              poolStart (this s') mod a = 0 /\
              alignment (this s') = a).
Proof.
  intros Hp Ha Hpow Hnew. pose proof (power_of_two_pos _ Hpow) as Hpos.
  pose proof (adjustment_bounds p a Hpos) as Hadj.
  unfold in_range in Hp. split.
  - exists (wrap (p + (a - p mod a) mod a)).
    split; [now apply alignPointer_value|].
    split; [apply wrap_range|].
    split; [apply wrap_multiple;
            [assumption|unfold in_range in Ha; lia|now apply aligned_multiple]|].
    intros Hfit. rewrite wrap_small by lia.
    split; [lia|]. intros q Hq Hmod. now apply aligned_least.
  - exists (constructed bs n a raw rest s).
    split; [now apply ctor_run|].
    unfold constructed. cbn [this poolStart alignment].
    split; [now apply alignPointer_value|]. split; [|reflexivity].
    apply wrap_multiple;
      [assumption|unfold in_range in Ha; lia|now apply aligned_multiple].
Qed.

Lemma alignPointer_smallest_multiple_witness :
  (exists r, alignPointer 4099 8 = Val r /\ in_range r /\ r mod 8 = 0 /\
             (4099 + 8 <= modulus ->
              4099 <= r /\ forall q, 4099 <= q -> q mod 8 = 0 -> r <= q)) /\
  (exists s', MemoryPool_ctor 16 2 8 (start_state [Some 4099]) = Returns tt s' /\
              alignPointer 4099 8 = Val (poolStart (this s')) /\
              poolStart (this s') mod 8 = 0 /\
              alignment (this s') = 8).
Proof.
  apply (alignPointer_smallest_multiple 4099 8 16 2 4099 []
           (start_state [Some 4099])).
  - split; [discriminate | reflexivity].
  - split; [discriminate | reflexivity].
  - exists 3. split; [discriminate | reflexivity].
  - reflexivity.
Defined.

(** C5 as stated fails at the top of the address space: for the address
    [2^64 - 1] and alignment 8 the sum wraps and [alignPointer] returns 0,
    which is below the address it was given. *)
Lemma alignPointer_wraps_to_zero :
  alignPointer 18446744073709551615 8 = Val 0 /\
  in_range 18446744073709551615 /\
  0 < 18446744073709551615.
Proof. repeat split; discriminate. Qed.

(** ** Construction *)

(** The stores of the linking loop, for blocks of any size: the loop stops
    [iters] slots further and writes no byte before its first slot or eight
    bytes or more past its last one. *)
Lemma link_blocks_writes iters bs : forall cur m,
  0 <= bs -> 0 <= cur -> cur + Z.of_nat iters * bs < modulus ->
  fst (link_blocks iters bs cur m) = cur + Z.of_nat iters * bs /\
  (forall x, x < cur \/ cur + Z.of_nat iters * bs + ptr_bytes <= x ->
             snd (link_blocks iters bs cur m) x = m x).
Proof.
  unfold ptr_bytes.
  induction iters as [|k IH]; intros cur m Hbs Hcur Hfit.
  - cbn [link_blocks fst snd]. split; [lia|auto].
  - cbn [link_blocks].
    assert (Hnext : load_ptr (store_ptr m cur (wrap (cur + bs))) cur = cur + bs).
    { rewrite load_store_same. unfold wrap.
      rewrite Z.mod_mod by (pose proof modulus_pos; lia).
      apply Z.mod_small. nia. }
    rewrite Hnext.
    destruct (IH (cur + bs) (store_ptr m cur (wrap (cur + bs))))
      as [Hlast Hout]; [lia|lia|nia|].
    split; [rewrite Hlast; lia|].
    intros x Hx. rewrite Hout by nia.
    apply store_ptr_outside. unfold ptr_bytes. nia.
Qed.

(** C7, as the code has it: the constructor never looks at [blockSize].
    Once [operator new] has answered and the alignment is a power of two, it
    throws for no block size and no capacity, a block size below the pointer
    width included.  And when the stores of the linking stay inside the
    region reserved (the last link ends at or before the region's end, which
    block sizes below eight allow), the constructor returns a pool that
    records the block size as it was given, having written no byte outside
    the region. *)
Theorem ctor_ignores_blockSize bs n a raw rest s :
  new_results s = Some raw :: rest ->
  in_range a -> power_of_two a ->
  0 <= bs -> 1 <= n ->
  0 < raw -> bs * n + a - 1 < modulus ->
  raw + region_bytes bs n a <= modulus ->
  raw + (a - raw mod a) mod a + (n - 1) * bs + ptr_bytes
  <= raw + region_bytes bs n a ->
  (forall bs' n', thrown (MemoryPool_ctor bs' n' a s) = None) /\
  exists s',
    MemoryPool_ctor bs n a s = Returns tt s' /\
    blockSize (this s') = bs /\
    totalBlocks (this s') = n /\
    reserved s' = (raw, region_bytes bs n a) :: reserved s /\
    (forall x, x < raw \/ raw + region_bytes bs n a <= x ->
               heap s' x = heap s x).
Proof.
  intros Hnew Ha Hpow Hbs Hn Hraw Hsize Hfit Hinside.
  pose proof (power_of_two_pos _ Hpow) as Hpos.
  pose proof (adjustment_bounds raw a Hpos) as Hadj.
  split.
  { intros bs' n'. rewrite (ctor_run bs' n' a raw rest s Hnew Ha Hpow).
    reflexivity. }
  exists (constructed bs n a raw rest s).
  split; [now apply ctor_run|].
  split; [reflexivity|]. split; [reflexivity|]. split; [reflexivity|].
  unfold ptr_bytes in Hinside.
  assert (Hk : Z.of_nat (rounds n) = n - 1) by (unfold rounds; lia).
  assert (Hwrap : wrap (raw + (a - raw mod a) mod a)
                  = raw + (a - raw mod a) mod a).
  { apply wrap_small. nia. }
  unfold constructed. cbn [heap]. rewrite Hwrap.
  set (start := raw + (a - raw mod a) mod a) in *.
  destruct (link_blocks_writes (rounds n) bs start (heap s))
    as [Hlast Hout]; [lia|lia|rewrite Hk; nia|].
  rewrite Hk in *. rewrite Hlast.
  intros x Hx. rewrite store_ptr_outside by (unfold ptr_bytes; nia).
  apply Hout. unfold ptr_bytes. nia.
Qed.

Lemma ctor_ignores_blockSize_witness :
  (forall bs' n',
     thrown (MemoryPool_ctor bs' n' 8 (start_state [Some 4096])) = None) /\
  exists s',
    MemoryPool_ctor 1 2 8 (start_state [Some 4096]) = Returns tt s' /\
    blockSize (this s') = 1 /\
    totalBlocks (this s') = 2 /\
    reserved s'
    = (4096, region_bytes 1 2 8) :: reserved (start_state [Some 4096]) /\
    (forall x, x < 4096 \/ 4096 + region_bytes 1 2 8 <= x ->
               heap s' x = heap (start_state [Some 4096]) x).
Proof.
  apply (ctor_ignores_blockSize 1 2 8 4096 [] (start_state [Some 4096])).
  - reflexivity.
  - split; [discriminate | reflexivity].
  - exists 3. split; [discriminate | reflexivity].
  - discriminate.
  - discriminate.
  - reflexivity.
  - reflexivity.
  - discriminate.
  - discriminate.
Defined.

(** C7 as stated fails: a pool of one-byte blocks is constructed without
    complaint, and its two blocks, one byte apart, do not hold their links:
    the first block's link reads 9, which is not the second block (4105).
    The same on a region that starts aligned, where every store of the
    construction lies inside the nine bytes reserved: the pool is built, and
    the first block's link reads 1, not the second block (4097). *)
Lemma ctor_accepts_one_byte_blocks :
  returned (MemoryPool_ctor 1 2 8 (start_state [Some 4099])) = Some tt /\
  field blockSize (MemoryPool_ctor 1 2 8 (start_state [Some 4099])) = Some 1 /\
  field poolStart (MemoryPool_ctor 1 2 8 (start_state [Some 4099])) = Some 4104 /\
  free_list_of 3 (MemoryPool_ctor 1 2 8 (start_state [Some 4099]))
  = Some [4104; 9; 12297829382473034410] /\
  returned (MemoryPool_ctor 1 2 8 (start_state [Some 4096])) = Some tt /\
  thrown (MemoryPool_ctor 1 2 8 (start_state [Some 4096])) = None /\
  field blockSize (MemoryPool_ctor 1 2 8 (start_state [Some 4096])) = Some 1 /\
  field poolStart (MemoryPool_ctor 1 2 8 (start_state [Some 4096])) = Some 4096 /\
  free_list_of 3 (MemoryPool_ctor 1 2 8 (start_state [Some 4096]))
  = Some [4096; 1; 12297829382473034410].
Proof. vm_compute. repeat split. Qed.

(** The constructor never writes [usedBlocks]: however it ends, the member
    holds what the storage held before. *)
Lemma ctor_keeps_usedBlocks bs n a s s' :
  final (MemoryPool_ctor bs n a s) = Some s' ->
  usedBlocks (this s') = usedBlocks (this s).
Proof.
  run. destruct (new_results s) as [|[raw|] rest].
  - intros [= <-]. reflexivity.
  - destruct (alignPointer raw a) as [start|e]; cbn [lift]; run.
    + destruct (link_blocks _ _ _ _) as [last m].
      intros [= <-]. reflexivity.
    + intros [= <-]. reflexivity.
  - intros [= <-]. reflexivity.
Qed.

(** C8, as the code has it: when [operator new] answers with a region that
    lies in the address space, the alignment is a power of two, a block holds
    a link ([blockSize >= 8]) and at least one block is asked for, the
    constructor returns and leaves the free list as the chain of exactly
    [totalBlocks] blocks: block [i] sits at [poolStart + i * blockSize] and
    links to block [i + 1] for every [i] in [[0, totalBlocks - 1)], the last
    block's link is null, and the head is block 0, the aligned start of the
    region. *)
Theorem ctor_builds_free_list bs n a raw rest s :
  new_results s = Some raw :: rest ->
  in_range a -> power_of_two a ->
  ptr_bytes <= bs -> 1 <= n ->
  0 < raw -> bs * n + a - 1 < modulus ->
  raw + region_bytes bs n a <= modulus ->
  exists s',
    MemoryPool_ctor bs n a s = Returns tt s' /\
    totalBlocks (this s') = n /\
    blockSize (this s') = bs /\
    freeList (this s') = poolStart (this s') /\
    raw <= poolStart (this s') < raw + a /\
    poolStart (this s') mod a = 0 /\
    free_list_is (heap s') (freeList (this s'))
      (slots (poolStart (this s')) bs (Z.to_nat n)) /\
    length (slots (poolStart (this s')) bs (Z.to_nat n)) = Z.to_nat n /\
    (forall i, 0 <= i < n - 1 ->
       load_ptr (heap s') (poolStart (this s') + i * bs)
       = poolStart (this s') + (i + 1) * bs) /\
    load_ptr (heap s') (poolStart (this s') + (n - 1) * bs) = 0.
Proof.
  intros Hnew Ha Hpow Hbs Hn Hraw Hsize Hfit.
  pose proof (power_of_two_pos _ Hpow) as Hpos.
  unfold ptr_bytes in Hbs.
  rewrite region_bytes_small in Hfit by nia.
  destruct (aligned_start raw a Hpos Hraw) as [Hwrap Hstart]; [nia|].
  exists (constructed bs n a raw rest s).
  split; [now apply ctor_run|].
  unfold constructed. cbn [this heap totalBlocks blockSize freeList poolStart].
  rewrite Hwrap. set (start := raw + (a - raw mod a) mod a) in *.
  destruct (sealed_chain (heap s)
              (store_ptr (snd (link_blocks (rounds n) bs start (heap s)))
                 (fst (link_blocks (rounds n) bs start (heap s))) 0)
              bs n start 0)
    as [Hlast [Hseg [Hlinks _]]];
    [unfold ptr_bytes; lia|lia|lia|nia| |intros x Hx; now apply store_ptr_outside|].
  { rewrite load_store_same. reflexivity. }
  repeat (split; [first [reflexivity | lia | idtac]|]).
  - unfold start. now apply aligned_multiple.
  - exact Hseg.
  - apply slots_length.
  - exact Hlinks.
  - rewrite <- Hlast. rewrite load_store_same. reflexivity.
Qed.

Lemma ctor_builds_free_list_witness :
  exists s',
    MemoryPool_ctor 16 2 8 (start_state [Some 4099]) = Returns tt s' /\
    totalBlocks (this s') = 2 /\
    blockSize (this s') = 16 /\
    freeList (this s') = poolStart (this s') /\
    4099 <= poolStart (this s') < 4099 + 8 /\
    poolStart (this s') mod 8 = 0 /\
    free_list_is (heap s') (freeList (this s'))
      (slots (poolStart (this s')) 16 (Z.to_nat 2)) /\
    length (slots (poolStart (this s')) 16 (Z.to_nat 2)) = Z.to_nat 2 /\
    (forall i, 0 <= i < 2 - 1 ->
       load_ptr (heap s') (poolStart (this s') + i * 16)
       = poolStart (this s') + (i + 1) * 16) /\
    load_ptr (heap s') (poolStart (this s') + (2 - 1) * 16) = 0.
Proof.
  apply (ctor_builds_free_list 16 2 8 4099 [] (start_state [Some 4099])).
  - reflexivity.
  - split; [discriminate | reflexivity].
  - exists 3. split; [discriminate | reflexivity].
  - discriminate.
  - discriminate.
  - reflexivity.
  - reflexivity.
  - discriminate.
Defined.

(** C8 as stated fails.  With four-byte blocks the construction succeeds and
    the links overwrite each other: the first block's link is not the second
    block (4108).  With a capacity of zero the free list still holds one
    block.  And in every case [usedBlocks] keeps the value the storage held
    before the constructor ran (7 here), the constructor never writes it. *)
Lemma ctor_free_list_broken :
  (returned (MemoryPool_ctor 4 3 8 (start_state [Some 4099])) = Some tt /\
   free_list_of 2 (MemoryPool_ctor 4 3 8 (start_state [Some 4099]))
   = Some [4104; 17660905525260]) /\
  (returned (MemoryPool_ctor 16 0 8 (start_state [Some 4099])) = Some tt /\
   free_list_of 5 (MemoryPool_ctor 16 0 8 (start_state [Some 4099]))
   = Some [4104]) /\
  (returned (MemoryPool_ctor 16 2 8 (start_state [Some 4099])) = Some tt /\
   free_list_of 5 (MemoryPool_ctor 16 2 8 (start_state [Some 4099]))
   = Some [4104; 4120] /\
   field usedBlocks (MemoryPool_ctor 16 2 8 (start_state [Some 4099]))
   = Some 7).
Proof. vm_compute. repeat split. Qed.

(** ** Growth *)

(** C3, as the code has it: [resizePool] computes the new capacity
    [n = totalBlocks + totalBlocks / 2] with no lower bound (so [n] is
    [totalBlocks] again when that is 1).  When [totalBlocks >= 1], a block
    holds a link, and [operator new] answers with a region in the address
    space that is apart from the blocks of the present free list [old] (which
    may be non-empty), it slices a chain of [n] blocks from the aligned start
    of the new region, the tail of that chain links to the previous head, the
    head becomes the new chain's first block and [totalBlocks] becomes [n]:
    the free list is then the new blocks followed by [old]. *)
Theorem resizePool_prepends_chain raw rest old s :
  new_results s = Some raw :: rest ->
  in_range (alignment (this s)) -> power_of_two (alignment (this s)) ->
  in_range (freeList (this s)) ->
  ptr_bytes <= blockSize (this s) -> 1 <= totalBlocks (this s) ->
  0 < raw ->
  blockSize (this s) * (totalBlocks (this s) + totalBlocks (this s) / 2)
    + alignment (this s) - 1 < modulus ->
  raw + region_bytes (blockSize (this s))
          (totalBlocks (this s) + totalBlocks (this s) / 2)
          (alignment (this s)) <= modulus ->
  free_list_is (heap s) (freeList (this s)) old ->
  (forall b, In b old ->
     b + ptr_bytes <= raw \/
     raw + region_bytes (blockSize (this s))
             (totalBlocks (this s) + totalBlocks (this s) / 2)
             (alignment (this s)) <= b) ->
  exists s',
    resizePool s = Returns tt s' /\
    totalBlocks (this s') = totalBlocks (this s) + totalBlocks (this s) / 2 /\
    blockSize (this s') = blockSize (this s) /\
    raw <= freeList (this s') < raw + alignment (this s) /\
    freeList (this s') mod alignment (this s) = 0 /\
    lseg (heap s') (freeList (this s'))
      (slots (freeList (this s')) (blockSize (this s))
         (Z.to_nat (totalBlocks (this s'))))
      (freeList (this s)) /\
    free_list_is (heap s') (freeList (this s'))
      (slots (freeList (this s')) (blockSize (this s))
         (Z.to_nat (totalBlocks (this s'))) ++ old).
Proof.
  intros Hnew Ha Hpow Hfl Hbs Htot Hraw Hsize Hfit Hold Hapart.
  pose proof (power_of_two_pos _ Hpow) as Hpos.
  set (bs := blockSize (this s)) in *.
  set (a := alignment (this s)) in *.
  set (n := totalBlocks (this s) + totalBlocks (this s) / 2) in *.
  assert (Hdiv : 0 <= totalBlocks (this s) / 2) by (apply Z.div_pos; lia).
  assert (Hn : 1 <= n) by (unfold n; lia).
  unfold ptr_bytes in Hbs.
  rewrite region_bytes_small in Hfit, Hapart by nia.
  destruct (aligned_start raw a Hpos Hraw) as [Hwrap Hstart]; [nia|].
  assert (Hnew_size : wrap n = n) by (apply wrap_small; nia).
  exists (resized raw rest s).
  split; [apply resizePool_run; auto; lia|].
  unfold resized.
  cbn [this heap totalBlocks blockSize freeList poolStart].
  fold bs a n. rewrite Hwrap, Hnew_size.
  set (start := raw + (a - raw mod a) mod a) in *.
  set (linked := link_blocks (rounds n) bs start (heap s)).
  set (m2 := store_ptr (store_ptr (snd linked) (fst linked) 0) (fst linked)
               (freeList (this s))).
  destruct (sealed_chain (heap s) m2 bs n start (freeList (this s)))
    as [Hlast [Hseg [Hlinks Hout]]];
    [unfold ptr_bytes; lia|lia|lia|nia| | |].
  { unfold m2. fold linked. rewrite load_store_same. now apply wrap_small. }
  { intros x Hx. unfold m2. fold linked in Hx.
    rewrite !store_ptr_outside by assumption. reflexivity. }
  split; [reflexivity|]. split; [reflexivity|]. split; [lia|].
  split; [unfold start; now apply aligned_multiple|].
  split; [exact Hseg|].
  unfold free_list_is. apply lseg_app with (mid := freeList (this s)).
  - exact Hseg.
  - apply lseg_frame with (m := heap s); [|exact Hold].
    intros b Hb. apply load_ptr_ext. intros x Hx. apply Hout.
    unfold ptr_bytes in *. destruct (Hapart b Hb); [left|right]; nia.
Qed.

Lemma resizePool_prepends_chain_witness :
  exists s',
    resizePool two_free_blocks = Returns tt s' /\
    totalBlocks (this s') = 2 + 2 / 2 /\
    blockSize (this s') = 16 /\
    8195 <= freeList (this s') < 8195 + 8 /\
    freeList (this s') mod 8 = 0 /\
    lseg (heap s') (freeList (this s'))
      (slots (freeList (this s')) 16 (Z.to_nat (totalBlocks (this s'))))
      4104 /\
    free_list_is (heap s') (freeList (this s'))
      (slots (freeList (this s')) 16 (Z.to_nat (totalBlocks (this s')))
       ++ [4104; 4120]).
Proof.
  apply (resizePool_prepends_chain 8195 [] [4104; 4120] two_free_blocks).
  - reflexivity.
  - split; [discriminate | reflexivity].
  - exists 3. split; [discriminate | reflexivity].
  - split; [discriminate | reflexivity].
  - discriminate.
  - discriminate.
  - reflexivity.
  - reflexivity.
  - discriminate.
  - vm_compute. repeat split; discriminate.
  - intros b [<-|[<-|[]]]; left; discriminate.
Defined.

(** C3 as stated fails on the lower bound: from a capacity of one block the
    new capacity is one again, and from a capacity of zero it is zero. *)
Lemma resizePool_capacity_stays :
  field totalBlocks
    ((MemoryPool_ctor 16 1 8 ;; resizePool)
       (start_state [Some 4099; Some 8195])) = Some 1 /\
  returned
    ((MemoryPool_ctor 16 1 8 ;; resizePool)
       (start_state [Some 4099; Some 8195])) = Some tt /\
  field totalBlocks
    ((MemoryPool_ctor 16 0 8 ;; resizePool)
       (start_state [Some 4099; Some 8195])) = Some 0 /\
  returned
    ((MemoryPool_ctor 16 0 8 ;; resizePool)
       (start_state [Some 4099; Some 8195])) = Some tt.
Proof. vm_compute. repeat split. Qed.

(** [resizePool] returns or throws, and either way [poolStart] and the
    pointers given to [operator delete] are as before. *)
Lemma resizePool_frame s :
  exists s',
    (resizePool s = Returns tt s' \/ exists e, resizePool s = Throws e s') /\
    poolStart (this s') = poolStart (this s) /\
    deleted s' = deleted s.
Proof.
  run. destruct (new_results s) as [|[raw|] rest].
  - eexists. split; [right; eexists; reflexivity|]. split; reflexivity.
  - destruct (raw =? 0).
    + eexists. split; [right; eexists; reflexivity|]. split; reflexivity.
    + destruct (alignPointer raw (alignment (this s))) as [start|e];
        cbn [lift]; run.
      * destruct (link_blocks _ _ _ _) as [last m].
        eexists. split; [left; reflexivity|]. split; reflexivity.
      * eexists. split; [right; eexists; reflexivity|]. split; reflexivity.
  - eexists. split; [right; eexists; reflexivity|]. split; reflexivity.
Qed.

Lemma grow_frame k s :
  exists s',
    final (grow k s) = Some s' /\
    poolStart (this s') = poolStart (this s) /\
    deleted s' = deleted s.
Proof.
  revert s. induction k as [|k IH]; intros s.
  - exists s. repeat split.
  - destruct (resizePool_frame s) as [s1 [[Hret|[e Hthrow]] [Hstart Hdel]]].
    + destruct (IH s1) as [s' [Hfinal [Hstart' Hdel']]].
      exists s'. cbn [grow]. unfold bind. rewrite Hret.
      split; [exact Hfinal|]. split; congruence.
    + exists s1. cbn [grow]. unfold bind. rewrite Hthrow.
      split; [reflexivity|]. split; assumption.
Qed.

(** C10: [resizePool] never writes [poolStart].  After any number of grows,
    whether the last one returned or threw, [poolStart] is the start of the
    original region; a [reset] then puts the free-list head there, and the
    teardown hands that one pointer, and no other, to [operator delete]. *)
Theorem resizePool_keeps_poolStart k s :
  exists s',
    final (grow k s) = Some s' /\
    poolStart (this s') = poolStart (this s) /\
    field freeList (reset s') = Some (poolStart (this s)) /\
    option_map deleted (final (destroyMemoryPool s'))
    = Some (poolStart (this s) :: deleted s).
Proof.
  destruct (grow_frame k s) as [s' [Hfinal [Hstart Hdel]]].
  exists s'. split; [exact Hfinal|]. split; [exact Hstart|].
  unfold field. run. cbn [final option_map this freeList deleted].
  rewrite Hstart, Hdel. split; reflexivity.
Qed.

(** The same on a run: a pool of two blocks grows to three blocks in a
    second region; [reset] then leaves a free list of the two blocks of the
    first region, and the teardown deletes the first region only. *)
Example reset_after_grow_is_original_region :
  field totalBlocks
    ((MemoryPool_ctor 16 2 8 ;; resizePool ;; reset)
       (start_state [Some 4099; Some 8195])) = Some 3 /\
  free_list_of 9
    ((MemoryPool_ctor 16 2 8 ;; resizePool ;; reset)
       (start_state [Some 4099; Some 8195])) = Some [4104; 4120] /\
  option_map reserved (final
    ((MemoryPool_ctor 16 2 8 ;; resizePool ;; destroyMemoryPool)
       (start_state [Some 4099; Some 8195]))) = Some [(8195, 55); (4099, 39)] /\
  option_map deleted (final
    ((MemoryPool_ctor 16 2 8 ;; resizePool ;; destroyMemoryPool)
       (start_state [Some 4099; Some 8195]))) = Some [4104].
Proof. vm_compute. repeat split. Qed.

(** ** Allocation and release *)

Lemma deallocateBlock_run block s :
  lock (spinlock (this s)) = false ->
  deallocateBlock block s = Returns tt (released block s).
Proof. intros Hlock. run. rewrite Hlock. reflexivity. Qed.

Lemma deallocateBlock_locked block s :
  lock (spinlock (this s)) = true -> deallocateBlock block s = Spins.
Proof. intros Hlock. run. rewrite Hlock. reflexivity. Qed.

Lemma allocateBlock_pop s :
  lock (spinlock (this s)) = false ->
  freeList (this s) <> 0 ->
  allocateBlock s = Returns (freeList (this s)) (popped s).
Proof.
  intros Hlock Hfl. apply Z.eqb_neq in Hfl.
  run. rewrite Hlock. run. rewrite Hfl. run. rewrite Hfl. reflexivity.
Qed.

(** [deallocateBlock] never writes [usedBlocks]. *)
Lemma deallocateBlock_keeps_usedBlocks block s s' :
  deallocateBlock block s = Returns tt s' ->
  usedBlocks (this s') = usedBlocks (this s).
Proof.
  destruct (lock (spinlock (this s))) eqn:Hlock.
  - rewrite deallocateBlock_locked by assumption. discriminate.
  - rewrite deallocateBlock_run by assumption. intros [= <-]. reflexivity.
Qed.

(** C9: on an unlocked pool, for every non-null block [b], [deallocateBlock
    b] followed at once by [allocateBlock] returns [b] itself: the release
    makes [b] the head of the free list, the allocation pops it without
    asking for memory, and the head is again what it was before. *)
Theorem deallocate_then_allocate b s :
  lock (spinlock (this s)) = false ->
  b <> 0 ->
  in_range (freeList (this s)) ->
  exists s1 s2,
    deallocateBlock b s = Returns tt s1 /\
    freeList (this s1) = b /\
    allocateBlock s1 = Returns b s2 /\
    freeList (this s2) = freeList (this s) /\
    new_results s2 = new_results s /\
    lock (spinlock (this s2)) = false.
Proof.
  intros Hlock Hb Hfl.
  exists (released b s), (popped (released b s)).
  split; [now apply deallocateBlock_run|]. split; [reflexivity|].
  split; [exact (allocateBlock_pop (released b s) eq_refl Hb)|].
  unfold popped, released. cbn [this freeList heap new_results spinlock lock].
  rewrite load_store_same.
  split; [now apply wrap_small|]. split; reflexivity.
Qed.

Lemma deallocate_then_allocate_witness :
  exists s1 s2,
    deallocateBlock 4104 two_free_blocks = Returns tt s1 /\
    freeList (this s1) = 4104 /\
    allocateBlock s1 = Returns 4104 s2 /\
    freeList (this s2) = freeList (this two_free_blocks) /\
    new_results s2 = new_results two_free_blocks /\
    lock (spinlock (this s2)) = false.
Proof.
  apply (deallocate_then_allocate 4104 two_free_blocks).
  - reflexivity.
  - discriminate.
  - split; [discriminate | reflexivity].
Defined.

(** C4, as the code has it: when the free list is empty and the reservation
    for the growth fails, [allocateBlock] does not return null.  The
    [std::bad_alloc] of [operator new] leaves [resizePool] and
    [allocateBlock]; and were [operator new] to answer null, [resizePool]
    throws [std::runtime_error], which leaves [allocateBlock] as well. *)
Theorem allocateBlock_growth_failure_throws s :
  lock (spinlock (this s)) = false ->
  freeList (this s) = 0 ->
  reservation_fails s ->
  exists s',
    allocateBlock s = Throws (reservation_failure s) s' /\
    returned (allocateBlock s) = None /\
    usedBlocks (this s') = usedBlocks (this s) /\
    freeList (this s') = 0.
Proof.
  intros Hlock Hfl Hfail. unfold reservation_fails in Hfail.
  unfold reservation_failure.
  run. rewrite Hlock. run. rewrite Hfl. cbn [Z.eqb].
  destruct (new_results s) as [|[raw|] rest].
  - eexists. repeat split.
  - subst raw. run. cbn [Z.eqb]. run. eexists. repeat split.
  - eexists. repeat split.
Qed.

Lemma allocateBlock_growth_failure_throws_witness :
  exists s',
    allocateBlock exhausted_pool
    = Throws (reservation_failure exhausted_pool) s' /\
    returned (allocateBlock exhausted_pool) = None /\
    usedBlocks (this s') = usedBlocks (this exhausted_pool) /\
    freeList (this s') = 0.
Proof.
  apply (allocateBlock_growth_failure_throws exhausted_pool).
  - reflexivity.
  - reflexivity.
  - exact I.
Defined.

(** [resizePool] leaves the pool object as it was when it throws. *)
Lemma resizePool_throw_this s e s' :
  resizePool s = Throws e s' -> this s' = this s.
Proof.
  run. destruct (new_results s) as [|[raw|] rest].
  - intros [= _ <-]. reflexivity.
  - run. destruct (raw =? 0).
    + intros [= _ <-]. reflexivity.
    + destruct (alignPointer raw (alignment (this s))) as [start|e'];
        cbn [lift]; run.
      * destruct (link_blocks _ _ _ _) as [last m]. discriminate.
      * intros [= _ <-]. reflexivity.
  - intros [= _ <-]. reflexivity.
Qed.

(** When the exception leaves [allocateBlock] the lock is still held: the
    next call on the pool spins. *)
Lemma allocateBlock_throw_keeps_lock s e s' :
  allocateBlock s = Throws e s' ->
  lock (spinlock (this s')) = true /\
  allocateBlock s' = Spins /\
  forall block, deallocateBlock block s' = Spins.
Proof.
  intros Hrun.
  assert (Hlock : lock (spinlock (this s')) = true).
  { revert Hrun. unfold allocateBlock, bind at 1, lockPool.
    destruct (lock (spinlock (this s))); [discriminate|].
    set (s1 := upd_this (with_spinlock {| lock := true |}) s).
    unfold bind at 1, gets at 1. unfold bind at 1.
    destruct (freeList (this s1) =? 0) eqn:Hfl.
    - destruct (resizePool s1) as [[] s2|e2 s2|] eqn:Hres.
      + unfold bind, gets, modify, read_next, unlockPool, ret, modify.
        destruct (freeList (this s2) =? 0); discriminate.
      + intros [= _ <-]. apply resizePool_throw_this in Hres.
        rewrite Hres. reflexivity.
      + discriminate.
    - unfold bind, gets, modify, read_next, unlockPool, ret, modify.
      rewrite Hfl. discriminate. }
  split; [exact Hlock|]. split.
  - run. rewrite Hlock. reflexivity.
  - intros block. now apply deallocateBlock_locked.
Qed.

(** C4 as stated fails: a pool of one block, after that block is allocated,
    has an empty free list; with no memory for the growth the next
    [allocateBlock] does not return at all, it throws [std::bad_alloc]. *)
Lemma allocateBlock_exhausted_throws :
  field freeList
    ((MemoryPool_ctor 16 1 8 ;; allocateBlock) (start_state [Some 4099]))
  = Some 0 /\
  returned
    ((MemoryPool_ctor 16 1 8 ;; allocateBlock ;; allocateBlock)
       (start_state [Some 4099])) = None /\
  thrown
    ((MemoryPool_ctor 16 1 8 ;; allocateBlock ;; allocateBlock)
       (start_state [Some 4099])) = Some bad_alloc /\
  returned (allocateBlock exhausted_pool) = None /\
  thrown (allocateBlock exhausted_pool) = Some bad_alloc.
Proof. vm_compute. repeat split. Qed.

(** C1 on a run.  A pool of two 16-byte blocks is constructed and reset, one
    block is allocated and released again: no block is outstanding, and
    [usedBlocks] is 1.  In the scenario of three allocations, a release of the
    first block and a fourth allocation, three blocks are outstanding and
    [usedBlocks] is 4.  [deallocateBlock] never decrements the counter. *)
Theorem usedBlocks_not_decremented :
  returned
    ((MemoryPool_ctor 16 2 8 ;;
      run_calls [Reset; Allocate; Deallocate 4104] [])
       (start_state [Some 4099])) = Some [] /\
  field usedBlocks
    ((MemoryPool_ctor 16 2 8 ;;
      run_calls [Reset; Allocate; Deallocate 4104] [])
       (start_state [Some 4099])) = Some 1 /\
  returned
    ((MemoryPool_ctor 16 2 8 ;;
      run_calls [Reset; Allocate; Allocate; Allocate; Deallocate 4104;
                 Allocate] [])
       (start_state [Some 4099; Some 8195])) = Some [4104; 8200; 4120] /\
  field usedBlocks
    ((MemoryPool_ctor 16 2 8 ;;
      run_calls [Reset; Allocate; Allocate; Allocate; Deallocate 4104;
                 Allocate] [])
       (start_state [Some 4099; Some 8195])) = Some 4.
Proof. vm_compute. repeat split. Qed.

(** C2 on a run.  A pool of two 16-byte blocks is constructed, both blocks
    are allocated and the first one is released; then [reset] runs.  The head
    is the start of the region and [usedBlocks] is 0, but no block was
    relinked: the free list holds the one block 4104, not the two blocks of
    the pool.  With no memory left for a growth, the first of the next two
    allocations returns 4104 and the second throws [std::bad_alloc]. *)
Theorem reset_does_not_relink :
  field totalBlocks
    ((MemoryPool_ctor 16 2 8 ;;
      run_calls [Allocate; Allocate; Deallocate 4104; Reset] [])
       (start_state [Some 4099])) = Some 2 /\
  field usedBlocks
    ((MemoryPool_ctor 16 2 8 ;;
      run_calls [Allocate; Allocate; Deallocate 4104; Reset] [])
       (start_state [Some 4099])) = Some 0 /\
  field freeList
    ((MemoryPool_ctor 16 2 8 ;;
      run_calls [Allocate; Allocate; Deallocate 4104; Reset] [])
       (start_state [Some 4099])) = Some 4104 /\
  free_list_of 9
    ((MemoryPool_ctor 16 2 8 ;;
      run_calls [Allocate; Allocate; Deallocate 4104; Reset] [])
       (start_state [Some 4099])) = Some [4104] /\
  returned
    ((MemoryPool_ctor 16 2 8 ;;
      run_calls [Allocate; Allocate; Deallocate 4104; Reset] [] ;;
      allocateBlock)
       (start_state [Some 4099])) = Some 4104 /\
  thrown
    ((MemoryPool_ctor 16 2 8 ;;
      run_calls [Allocate; Allocate; Deallocate 4104; Reset] [] ;;
      allocateBlock ;; allocateBlock)
       (start_state [Some 4099])) = Some bad_alloc.
Proof. vm_compute. repeat split. Qed.

(** * Further properties of the pool *)

Section PoolCalls.

(** [allocateBlock] on an unlocked pool whose free list is [b :: rest]:
    the call returns [b] without asking for memory, the free list becomes
    [rest], the counter goes up by one, memory is as before and the lock is
    released again. *)
Theorem allocateBlock_pops_head b rest s :
  lock (spinlock (this s)) = false ->
  free_list_is (heap s) (freeList (this s)) (b :: rest) ->
  exists s',
    allocateBlock s = Returns b s' /\
    free_list_is (heap s') (freeList (this s')) rest /\
    usedBlocks (this s') = wrap (usedBlocks (this s) + 1) /\
    heap s' = heap s /\
    new_results s' = new_results s /\
    totalBlocks (this s') = totalBlocks (this s) /\
    lock (spinlock (this s')) = false.
Proof.
  intros Hlock [Hhead [Hb Hrest]]. subst b.
  exists (popped s).
  split; [exact (allocateBlock_pop s Hlock Hb)|].
  unfold popped, free_list_is.
  cbn [this heap freeList usedBlocks new_results totalBlocks spinlock lock].
  split; [exact Hrest|]. repeat split.
Qed.

Lemma allocateBlock_pops_head_witness :
  exists s',
    allocateBlock two_free_blocks = Returns 4104 s' /\
    free_list_is (heap s') (freeList (this s')) [4120] /\
    usedBlocks (this s') = wrap (usedBlocks (this two_free_blocks) + 1) /\
    heap s' = heap two_free_blocks /\
    new_results s' = new_results two_free_blocks /\
    totalBlocks (this s') = totalBlocks (this two_free_blocks) /\
    lock (spinlock (this s')) = false.
Proof.
  apply (allocateBlock_pops_head 4104 [4120] two_free_blocks).
  - reflexivity.
  - vm_compute. repeat split; discriminate.
Defined.

Lemma wrap_add_l u k : wrap (wrap u + k) = wrap (u + k).
Proof. unfold wrap. apply Zplus_mod_idemp_l. Qed.

(** As many allocations as the first part [l1] of the free list is long
    return the blocks of [l1], in the order of the list, and leave the head
    at the block [t] that follows them. *)
Lemma allocate_n_prefix l1 t s :
  lock (spinlock (this s)) = false ->
  in_range (usedBlocks (this s)) ->
  lseg (heap s) (freeList (this s)) l1 t ->
  exists s',
    allocate_n (length l1) s = Returns l1 s' /\
    freeList (this s') = t /\
    usedBlocks (this s')
    = wrap (usedBlocks (this s) + Z.of_nat (length l1)) /\
    heap s' = heap s /\
    new_results s' = new_results s /\
    reserved s' = reserved s /\
    poolStart (this s') = poolStart (this s) /\
    blockSize (this s') = blockSize (this s) /\
    totalBlocks (this s') = totalBlocks (this s) /\
    alignment (this s') = alignment (this s) /\
    lock (spinlock (this s')) = false.
Proof.
  revert s. induction l1 as [|b l1 IH]; intros s Hlock Hused Hlist.
  - exists s. cbn [allocate_n length lseg] in *. unfold ret.
    rewrite Z.add_0_r, wrap_small by exact Hused. repeat split; auto.
  - destruct Hlist as [Hhead [Hb Hrest]]. subst b.
    destruct (IH (popped s)) as [s' [Hrun Hfacts]];
      [reflexivity|apply wrap_range|exact Hrest|].
    exists s'. cbn [allocate_n length]. unfold bind at 1.
    rewrite (allocateBlock_pop s Hlock Hb). unfold bind, ret. rewrite Hrun.
    split; [reflexivity|].
    unfold popped in Hfacts.
    cbn [this heap freeList usedBlocks new_results totalBlocks spinlock lock
         reserved poolStart blockSize alignment] in Hfacts.
    destruct Hfacts as (H1 & H2 & H3 & H4 & H5 & H6 & H7 & H8 & H9 & H10).
    repeat split; auto.
    rewrite H2, wrap_add_l. f_equal. lia.
Qed.

Lemma slots_lower start bs n b :
  0 <= bs -> In b (slots start bs n) -> start <= b.
Proof.
  intros Hbs Hin. apply slots_In in Hin as [i [_ ->]]. nia.
Qed.

Lemma slots_NoDup start bs n : 0 < bs -> NoDup (slots start bs n).
Proof.
  intros Hbs. revert start. induction n as [|n IH]; intros start; simpl.
  - constructor.
  - constructor; [|apply IH].
    intros Hin. apply slots_lower in Hin; lia.
Qed.

(** What a successful construction leaves, under the conditions of a
    region that fits the address space. *)
Lemma constructed_facts bs n a raw rest s :
  in_range a -> power_of_two a ->
  ptr_bytes <= bs -> 1 <= n ->
  0 < raw -> bs * n + a - 1 < modulus ->
  raw + region_bytes bs n a <= modulus ->
  poolStart (this (constructed bs n a raw rest s))
  = raw + (a - raw mod a) mod a /\
  raw <= raw + (a - raw mod a) mod a <= raw + (a - 1) /\
  raw + (a - raw mod a) mod a + n * bs <= raw + region_bytes bs n a /\
  free_list_is (heap (constructed bs n a raw rest s))
    (raw + (a - raw mod a) mod a)
    (slots (raw + (a - raw mod a) mod a) bs (Z.to_nat n)) /\
  (forall x, x < raw + (a - raw mod a) mod a
             \/ raw + (a - raw mod a) mod a + n * bs <= x ->
             heap (constructed bs n a raw rest s) x = heap s x).
Proof.
  intros Ha Hpow Hbs Hn Hraw Hsize Hfit.
  pose proof (power_of_two_pos _ Hpow) as Hpos.
  unfold ptr_bytes in Hbs.
  rewrite region_bytes_small in * by nia.
  destruct (aligned_start raw a Hpos Hraw) as [Hwrap Hstart]; [nia|].
  unfold constructed. cbn [this heap poolStart].
  rewrite Hwrap. set (start := raw + (a - raw mod a) mod a) in *.
  destruct (sealed_chain (heap s)
              (store_ptr (snd (link_blocks (rounds n) bs start (heap s)))
                 (fst (link_blocks (rounds n) bs start (heap s))) 0)
              bs n start 0)
    as [Hlast [Hseg [Hlinks Hout]]];
    [unfold ptr_bytes; lia|lia|lia|nia| |intros x Hx; now apply store_ptr_outside|].
  { rewrite load_store_same. reflexivity. }
  split; [reflexivity|]. split; [lia|]. split; [nia|].
  split; [exact Hseg|exact Hout].
Qed.

(** Exhaustion of a fresh pool: after a construction with [n >= 1] blocks
    that hold a link, on a region inside the address space, [n] allocations
    in a row all return; they hand out the [n] slots of the region in
    address order, no block twice, without asking for memory, and leave the
    free list empty. *)
Theorem ctor_then_allocate_all bs n a raw rest s :
  new_results s = Some raw :: rest ->
  in_range a -> power_of_two a ->
  ptr_bytes <= bs -> 1 <= n ->
  0 < raw -> bs * n + a - 1 < modulus ->
  raw + region_bytes bs n a <= modulus ->
  in_range (usedBlocks (this s)) ->
  exists s1 s2,
    MemoryPool_ctor bs n a s = Returns tt s1 /\
    allocate_n (Z.to_nat n) s1
    = Returns (slots (poolStart (this s1)) bs (Z.to_nat n)) s2 /\
    NoDup (slots (poolStart (this s1)) bs (Z.to_nat n)) /\
    (forall i, (i < Z.to_nat n)%nat ->
       nth i (slots (poolStart (this s1)) bs (Z.to_nat n)) 0
       = poolStart (this s1) + Z.of_nat i * bs) /\
    freeList (this s2) = 0 /\
    usedBlocks (this s2) = wrap (usedBlocks (this s) + n) /\
    new_results s2 = rest /\
    totalBlocks (this s2) = n.
Proof.
  intros Hnew Ha Hpow Hbs Hn Hraw Hsize Hfit Hused.
  destruct (constructed_facts bs n a raw rest s Ha Hpow Hbs Hn Hraw Hsize Hfit)
    as (Hstart & Hbounds & _ & Hlist & _).
  set (s1 := constructed bs n a raw rest s) in *.
  rewrite <- Hstart in Hlist.
  destruct (allocate_n_prefix (slots (poolStart (this s1)) bs (Z.to_nat n))
              0 s1) as [s2 [Hrun Hfacts]];
    [reflexivity|exact Hused|exact Hlist|].
  rewrite slots_length in Hrun, Hfacts.
  destruct Hfacts as (H1 & H2 & _ & H4 & _ & _ & _ & H8 & _).
  exists s1, s2. split; [now apply ctor_run|]. split; [exact Hrun|].
  split; [apply slots_NoDup; unfold ptr_bytes in Hbs; lia|].
  split; [intros i Hi; now apply slots_nth|].
  split; [exact H1|]. split; [|split; [exact H4|exact H8]].
  rewrite H2. cbn [s1 constructed this usedBlocks]. f_equal. lia.
Qed.

Lemma ctor_then_allocate_all_witness :
  exists s1 s2,
    MemoryPool_ctor 16 2 8 (start_state [Some 4099]) = Returns tt s1 /\
    allocate_n (Z.to_nat 2) s1
    = Returns (slots (poolStart (this s1)) 16 (Z.to_nat 2)) s2 /\
    NoDup (slots (poolStart (this s1)) 16 (Z.to_nat 2)) /\
    (forall i, (i < Z.to_nat 2)%nat ->
       nth i (slots (poolStart (this s1)) 16 (Z.to_nat 2)) 0
       = poolStart (this s1) + Z.of_nat i * 16) /\
    freeList (this s2) = 0 /\
    usedBlocks (this s2)
    = wrap (usedBlocks (this (start_state [Some 4099])) + 2) /\
    new_results s2 = [] /\
    totalBlocks (this s2) = 2.
Proof.
  apply (ctor_then_allocate_all 16 2 8 4099 [] (start_state [Some 4099])).
  - reflexivity.
  - split; [discriminate | reflexivity].
  - exists 3. split; [discriminate | reflexivity].
  - discriminate.
  - discriminate.
  - reflexivity.
  - reflexivity.
  - discriminate.
  - split; [discriminate | reflexivity].
Defined.

(** What a successful [resizePool] leaves, on a region that fits the
    address space and is apart from the blocks [old] of the free list. *)
Lemma resized_facts raw rest old s :
  in_range (alignment (this s)) -> power_of_two (alignment (this s)) ->
  in_range (freeList (this s)) ->
  ptr_bytes <= blockSize (this s) -> 1 <= totalBlocks (this s) ->
  0 < raw ->
  blockSize (this s) * (totalBlocks (this s) + totalBlocks (this s) / 2)
    + alignment (this s) - 1 < modulus ->
  raw + region_bytes (blockSize (this s))
          (totalBlocks (this s) + totalBlocks (this s) / 2)
          (alignment (this s)) <= modulus ->
  free_list_is (heap s) (freeList (this s)) old ->
  (forall b, In b old ->
     b + ptr_bytes <= raw \/
     raw + region_bytes (blockSize (this s))
             (totalBlocks (this s) + totalBlocks (this s) / 2)
             (alignment (this s)) <= b) ->
  totalBlocks (this (resized raw rest s))
  = totalBlocks (this s) + totalBlocks (this s) / 2 /\
  raw <= freeList (this (resized raw rest s)) < raw + alignment (this s) /\
  free_list_is (heap (resized raw rest s))
    (freeList (this (resized raw rest s)))
    (slots (freeList (this (resized raw rest s))) (blockSize (this s))
       (Z.to_nat (totalBlocks (this s) + totalBlocks (this s) / 2)) ++ old).
Proof.
  intros Ha Hpow Hfl Hbs Htot Hraw Hsize Hfit Hold Hapart.
  pose proof (power_of_two_pos _ Hpow) as Hpos.
  set (bs := blockSize (this s)) in *.
  set (a := alignment (this s)) in *.
  set (n := totalBlocks (this s) + totalBlocks (this s) / 2) in *.
  assert (Hdiv : 0 <= totalBlocks (this s) / 2) by (apply Z.div_pos; lia).
  assert (Hn : 1 <= n) by (unfold n; lia).
  unfold ptr_bytes in Hbs.
  rewrite region_bytes_small in Hfit, Hapart by nia.
  destruct (aligned_start raw a Hpos Hraw) as [Hwrap Hstart]; [nia|].
  assert (Hnew_size : wrap n = n) by (apply wrap_small; nia).
  unfold resized.
  cbn [this heap totalBlocks blockSize freeList poolStart].
  fold bs a n. rewrite Hwrap, Hnew_size.
  set (start := raw + (a - raw mod a) mod a) in *.
  set (linked := link_blocks (rounds n) bs start (heap s)).
  set (m2 := store_ptr (store_ptr (snd linked) (fst linked) 0) (fst linked)
               (freeList (this s))).
  destruct (sealed_chain (heap s) m2 bs n start (freeList (this s)))
    as [Hlast [Hseg [Hlinks Hout]]];
    [unfold ptr_bytes; lia|lia|lia|nia| | |].
  { unfold m2. fold linked. rewrite load_store_same. now apply wrap_small. }
  { intros x Hx. unfold m2. fold linked in Hx.
    rewrite !store_ptr_outside by assumption. reflexivity. }
  split; [reflexivity|]. split; [lia|].
  unfold free_list_is. apply lseg_app with (mid := freeList (this s)).
  - exact Hseg.
  - apply lseg_frame with (m := heap s); [|exact Hold].
    intros b Hb. apply load_ptr_ext. intros x Hx. apply Hout.
    unfold ptr_bytes in *. destruct (Hapart b Hb); [left|right]; nia.
Qed.

(** [allocateBlock] on an empty free list when the reservation succeeds:
    the closed form of the state it leaves. *)
Lemma allocateBlock_grow_run raw rest s :
  lock (spinlock (this s)) = false ->
  freeList (this s) = 0 ->
  new_results s = Some raw :: rest ->
  raw <> 0 ->
  in_range (alignment (this s)) -> power_of_two (alignment (this s)) ->
  freeList (this (resized raw rest s)) <> 0 ->
  allocateBlock s
  = Returns (freeList (this (resized raw rest s)))
      (popped (resized raw rest s)).
Proof.
  intros Hlock Hfl Hnew Hraw Ha Hpow Hstart.
  unfold allocateBlock, bind at 1, lockPool. rewrite Hlock.
  set (s1 := upd_this (with_spinlock {| lock := true |}) s).
  unfold bind at 1, gets at 1. unfold bind at 1.
  change (freeList (this s1)) with (freeList (this s)). rewrite Hfl.
  cbn [Z.eqb].
  rewrite (resizePool_run raw rest s1); [|exact Hnew|exact Hraw|exact Ha|exact Hpow].
  unfold bind at 1, gets at 1.
  change (freeList (this (resized raw rest s1)))
    with (freeList (this (resized raw rest s))).
  apply Z.eqb_neq in Hstart. rewrite Hstart.
  reflexivity.
Qed.

(** Growth on demand: [allocateBlock] on an unlocked pool of capacity
    [totalBlocks >= 1] and blocks of eight bytes or more whose free list is
    empty, when [operator new] answers with a region inside the address
    space.  The call returns the first block of the new region, which is what
    [alignPointer] makes of the region's address: a multiple of the
    alignment, fewer than [alignment] bytes into the region.  The capacity
    becomes [totalBlocks + totalBlocks / 2], the free list is the rest of the
    new region's slots, the counter goes up by one, [poolStart] keeps
    pointing to the old region and the lock is released. *)
Theorem allocateBlock_grows_when_empty raw rest s :
  lock (spinlock (this s)) = false ->
  freeList (this s) = 0 ->
  new_results s = Some raw :: rest ->
  in_range (alignment (this s)) -> power_of_two (alignment (this s)) ->
  ptr_bytes <= blockSize (this s) -> 1 <= totalBlocks (this s) ->
  0 < raw ->
  blockSize (this s) * (totalBlocks (this s) + totalBlocks (this s) / 2)
    + alignment (this s) - 1 < modulus ->
  raw + region_bytes (blockSize (this s))
          (totalBlocks (this s) + totalBlocks (this s) / 2)
          (alignment (this s)) <= modulus ->
  exists b s',
    allocateBlock s = Returns b s' /\
    alignPointer raw (alignment (this s)) = Val b /\
    b mod alignment (this s) = 0 /\
    raw <= b < raw + alignment (this s) /\
    totalBlocks (this s') = totalBlocks (this s) + totalBlocks (this s) / 2 /\
    free_list_is (heap s') (freeList (this s'))
      (slots (b + blockSize (this s)) (blockSize (this s))
         (Z.to_nat (totalBlocks (this s') - 1))) /\
    length (slots (b + blockSize (this s)) (blockSize (this s))
              (Z.to_nat (totalBlocks (this s') - 1)))
    = Z.to_nat (totalBlocks (this s) + totalBlocks (this s) / 2 - 1) /\
    usedBlocks (this s') = wrap (usedBlocks (this s) + 1) /\
    poolStart (this s') = poolStart (this s) /\
    blockSize (this s') = blockSize (this s) /\
    alignment (this s') = alignment (this s) /\
    reserved s'
    = (raw, region_bytes (blockSize (this s))
              (totalBlocks (this s) + totalBlocks (this s) / 2)
              (alignment (this s))) :: reserved s /\
    new_results s' = rest /\
    lock (spinlock (this s')) = false.
Proof.
  intros Hlock Hfl Hnew Ha Hpow Hbs Htot Hraw Hsize Hfit.
  assert (Hzero : in_range (freeList (this s))).
  { rewrite Hfl. split; [lia|apply modulus_pos]. }
  assert (Hnil : free_list_is (heap s) (freeList (this s)) []).
  { rewrite Hfl. reflexivity. }
  destruct (resized_facts raw rest [] s Ha Hpow Hzero Hbs Htot Hraw Hsize
              Hfit Hnil) as (Htotal & Hrange & Hlist).
  { intros b []. }
  pose proof (power_of_two_pos _ Hpow) as Hpos.
  assert (Hdiv : 0 <= totalBlocks (this s) / 2) by (apply Z.div_pos; lia).
  assert (Hnew_size :
            wrap (totalBlocks (this s) + totalBlocks (this s) / 2)
            = totalBlocks (this s) + totalBlocks (this s) / 2).
  { unfold ptr_bytes in Hbs. apply wrap_small. nia. }
  set (n := totalBlocks (this s) + totalBlocks (this s) / 2) in *.
  rewrite app_nil_r in Hlist.
  replace (Z.to_nat n) with (S (Z.to_nat (n - 1))) in Hlist by lia.
  destruct Hlist as [_ [Hb Hrest]].
  exists (freeList (this (resized raw rest s))), (popped (resized raw rest s)).
  split; [apply allocateBlock_grow_run; auto; lia|].
  split; [now apply alignPointer_value|].
  split.
  { unfold resized. cbn [this freeList].
    apply wrap_multiple;
      [assumption|unfold in_range in Ha; lia|now apply aligned_multiple]. }
  split; [exact Hrange|].
  unfold popped.
  cbn [this heap freeList totalBlocks usedBlocks poolStart new_results
       spinlock lock blockSize alignment reserved].
  split; [exact Htotal|]. rewrite Htotal.
  split; [exact Hrest|].
  split; [apply slots_length|].
  unfold resized.
  cbn [this usedBlocks poolStart blockSize alignment reserved new_results].
  fold n. rewrite Hnew_size. repeat split.
Qed.

Lemma allocateBlock_grows_when_empty_witness :
  exists b s',
    allocateBlock exhausted_pool_of_four = Returns b s' /\
    alignPointer 8195 16 = Val b /\
    b mod 16 = 0 /\
    8195 <= b < 8195 + 16 /\
    totalBlocks (this s') = 4 + 4 / 2 /\
    free_list_is (heap s') (freeList (this s'))
      (slots (b + 16) 16 (Z.to_nat (totalBlocks (this s') - 1))) /\
    length (slots (b + 16) 16 (Z.to_nat (totalBlocks (this s') - 1)))
    = Z.to_nat (4 + 4 / 2 - 1) /\
    usedBlocks (this s') = wrap (4 + 1) /\
    poolStart (this s') = 4112 /\
    blockSize (this s') = 16 /\
    alignment (this s') = 16 /\
    reserved s'
    = (8195, region_bytes 16 (4 + 4 / 2) 16)
      :: reserved exhausted_pool_of_four /\
    new_results s' = [] /\
    lock (spinlock (this s')) = false.
Proof.
  apply (allocateBlock_grows_when_empty 8195 [] exhausted_pool_of_four).
  - reflexivity.
  - reflexivity.
  - reflexivity.
  - split; [discriminate | reflexivity].
  - exists 4. split; [discriminate | reflexivity].
  - discriminate.
  - discriminate.
  - reflexivity.
  - reflexivity.
  - discriminate.
Defined.

(** The same call on a run: the block returned is 8208, the first multiple
    of 16 in the region at 8195, and five blocks of the six remain free. *)
Example allocateBlock_grows_when_empty_run :
  returned (allocateBlock exhausted_pool_of_four) = Some 8208 /\
  field totalBlocks (allocateBlock exhausted_pool_of_four) = Some 6 /\
  free_list_of 9 (allocateBlock exhausted_pool_of_four)
  = Some [8224; 8240; 8256; 8272; 8288].
Proof. vm_compute. repeat split. Qed.

(** [deallocateBlock] pushes: on an unlocked pool whose free list is
    [old], releasing a non-null block whose link field overlaps no block of
    [old] makes the free list [block :: old].  The counter of used blocks is
    not touched, no memory is asked for or given back, and the lock is
    released. *)
Theorem deallocateBlock_pushes block old s :
  lock (spinlock (this s)) = false ->
  block <> 0 ->
  in_range (freeList (this s)) ->
  free_list_is (heap s) (freeList (this s)) old ->
  (forall b, In b old -> b + ptr_bytes <= block \/ block + ptr_bytes <= b) ->
  exists s',
    deallocateBlock block s = Returns tt s' /\
    free_list_is (heap s') (freeList (this s')) (block :: old) /\
    usedBlocks (this s') = usedBlocks (this s) /\
    totalBlocks (this s') = totalBlocks (this s) /\
    new_results s' = new_results s /\
    deleted s' = deleted s /\
    lock (spinlock (this s')) = false.
Proof.
  intros Hlock Hblock Hfl Hold Hapart.
  exists (released block s). split; [now apply deallocateBlock_run|].
  unfold released, free_list_is.
  cbn [this heap freeList usedBlocks totalBlocks new_results deleted
       spinlock lock lseg].
  split; [|repeat split].
  split; [reflexivity|]. split; [exact Hblock|].
  rewrite load_store_same, wrap_small by exact Hfl.
  apply lseg_frame with (m := heap s); [|exact Hold].
  intros b Hb. apply load_store_other. destruct (Hapart b Hb); auto.
Qed.

Lemma deallocateBlock_pushes_witness :
  exists s',
    deallocateBlock 4136 two_free_blocks = Returns tt s' /\
    free_list_is (heap s') (freeList (this s')) [4136; 4104; 4120] /\
    usedBlocks (this s') = usedBlocks (this two_free_blocks) /\
    totalBlocks (this s') = totalBlocks (this two_free_blocks) /\
    new_results s' = new_results two_free_blocks /\
    deleted s' = deleted two_free_blocks /\
    lock (spinlock (this s')) = false.
Proof.
  apply (deallocateBlock_pushes 4136 [4104; 4120] two_free_blocks).
  - reflexivity.
  - discriminate.
  - split; [discriminate | reflexivity].
  - vm_compute. repeat split; discriminate.
  - intros b [<-|[<-|[]]]; left; discriminate.
Defined.

(** Releasing the same block twice in a row: the block's link then points
    to the block itself, and the next two allocations both return it, so two
    consumers hold the same block; the free list still starts with it. *)
Theorem double_release_hands_out_twice block s :
  lock (spinlock (this s)) = false ->
  block <> 0 -> in_range block ->
  exists s1 s2 s3,
    (deallocateBlock block ;; deallocateBlock block) s = Returns tt s1 /\
    load_ptr (heap s1) block = block /\
    allocateBlock s1 = Returns block s2 /\
    allocateBlock s2 = Returns block s3 /\
    freeList (this s3) = block /\
    new_results s3 = new_results s.
Proof.
  intros Hlock Hblock Hrange.
  set (s1 := released block (released block s)).
  assert (Hself : load_ptr (heap s1) block = block).
  { unfold s1, released. cbn [heap this freeList].
    rewrite load_store_same. now apply wrap_small. }
  exists s1, (popped s1), (popped (popped s1)).
  split.
  { unfold bind. rewrite (deallocateBlock_run block s Hlock).
    now rewrite deallocateBlock_run. }
  split; [exact Hself|].
  split; [exact (allocateBlock_pop s1 eq_refl Hblock)|].
  assert (Hhead : freeList (this (popped s1)) = block) by exact Hself.
  split.
  { pose proof (allocateBlock_pop (popped s1) eq_refl) as Hpop.
    rewrite Hhead in Hpop. exact (Hpop Hblock). }
  split; [|reflexivity].
  unfold popped at 1. cbn [this freeList heap]. rewrite Hhead. exact Hself.
Qed.

Lemma double_release_hands_out_twice_witness :
  exists s1 s2 s3,
    (deallocateBlock 4136 ;; deallocateBlock 4136) two_free_blocks
    = Returns tt s1 /\
    load_ptr (heap s1) 4136 = 4136 /\
    allocateBlock s1 = Returns 4136 s2 /\
    allocateBlock s2 = Returns 4136 s3 /\
    freeList (this s3) = 4136 /\
    new_results s3 = new_results two_free_blocks.
Proof.
  apply (double_release_hands_out_twice 4136 two_free_blocks).
  - reflexivity.
  - discriminate.
  - split; [discriminate | reflexivity].
Defined.

(** The lock around [allocateBlock].  A call that returns, with a block or
    with null, after a growth or without one, found the lock free and leaves
    it free: the pool can be called again. *)
Theorem allocateBlock_returns_unlocked b s s' :
  allocateBlock s = Returns b s' ->
  lock (spinlock (this s)) = false /\
  lock (spinlock (this s')) = false /\
  (forall block, exists s'', deallocateBlock block s' = Returns tt s'').
Proof.
  intros Hrun.
  assert (Hlocks : lock (spinlock (this s)) = false
                   /\ lock (spinlock (this s')) = false).
  { revert Hrun. unfold allocateBlock, bind at 1, lockPool.
    destruct (lock (spinlock (this s))); [discriminate|].
    set (s1 := upd_this (with_spinlock {| lock := true |}) s).
    unfold bind at 1, gets at 1. unfold bind at 1.
    destruct (freeList (this s1) =? 0) eqn:Hfl.
    + destruct (resizePool s1) as [[] s2|e2 s2|];
        [|discriminate|discriminate].
      unfold bind, gets, modify, read_next, unlockPool, ret, modify.
      destruct (freeList (this s2) =? 0); intros [= _ <-]; split; reflexivity.
    + unfold bind, gets, modify, read_next, unlockPool, ret, modify.
      rewrite Hfl. intros [= _ <-]; split; reflexivity. }
  destruct Hlocks as [H1 H2]. split; [exact H1|]. split; [exact H2|].
  intros block. eexists. now apply deallocateBlock_run.
Qed.

Lemma allocateBlock_returns_unlocked_witness :
  lock (spinlock (this two_free_blocks)) = false /\
  lock (spinlock (this (popped two_free_blocks))) = false /\
  (forall block,
     exists s'', deallocateBlock block (popped two_free_blocks)
                 = Returns tt s'').
Proof.
  apply (allocateBlock_returns_unlocked 4104 two_free_blocks
           (popped two_free_blocks)).
  apply (allocateBlock_pop two_free_blocks); [reflexivity | discriminate].
Defined.

Lemma allocateBlock_throw_keeps_lock_witness :
  lock (spinlock
          (this (upd_this (with_spinlock {| lock := true |}) exhausted_pool)))
  = true /\
  allocateBlock (upd_this (with_spinlock {| lock := true |}) exhausted_pool)
  = Spins /\
  (forall block,
     deallocateBlock block
       (upd_this (with_spinlock {| lock := true |}) exhausted_pool) = Spins).
Proof.
  apply (allocateBlock_throw_keeps_lock exhausted_pool bad_alloc
           (upd_this (with_spinlock {| lock := true |}) exhausted_pool)).
  reflexivity.
Defined.

Lemma ctor_keeps_usedBlocks_witness :
  usedBlocks (this (constructed 16 2 8 4099 [] (start_state [Some 4099])))
  = usedBlocks (this (start_state [Some 4099])) /\
  usedBlocks (this (start_state [Some 4099])) = 7.
Proof.
  split; [|reflexivity].
  apply (ctor_keeps_usedBlocks 16 2 8 (start_state [Some 4099])
           (constructed 16 2 8 4099 [] (start_state [Some 4099]))).
  reflexivity.
Defined.

(** The teardown deletes the aligned start, not the pointer [operator new]
    returned: the raw pointer is a local of [initializeMemoryPool] and is
    kept nowhere.  When the region does not start on a multiple of the
    alignment, [operator delete] is given an address that [operator new]
    never handed out; and both pointers of the pool are null afterwards. *)
Theorem destroy_deletes_aligned_start bs n a raw rest s :
  new_results s = Some raw :: rest ->
  in_range a -> power_of_two a ->
  0 < raw -> raw + (a - 1) < modulus ->
  raw mod a <> 0 ->
  exists s1 s2,
    MemoryPool_ctor bs n a s = Returns tt s1 /\
    destroyMemoryPool s1 = Returns tt s2 /\
    reserved s2 = (raw, region_bytes bs n a) :: reserved s /\
    deleted s2 = (raw + (a - raw mod a)) :: deleted s /\
    raw < raw + (a - raw mod a) /\
    poolStart (this s2) = 0 /\
    freeList (this s2) = 0.
Proof.
  intros Hnew Ha Hpow Hraw Hfit Hmis.
  pose proof (power_of_two_pos _ Hpow) as Hpos.
  pose proof (Z.mod_pos_bound raw a Hpos) as Hmod.
  destruct (aligned_start raw a Hpos Hraw Hfit) as [Hwrap _].
  rewrite (Z.mod_small (a - raw mod a)) in Hwrap by lia.
  exists (constructed bs n a raw rest s). eexists.
  split; [now apply ctor_run|].
  split; [reflexivity|].
  cbn [reserved deleted this poolStart freeList constructed].
  rewrite (Z.mod_small (a - raw mod a)) by lia.
  rewrite Hwrap. repeat split. lia.
Qed.

Lemma destroy_deletes_aligned_start_witness :
  exists s1 s2,
    MemoryPool_ctor 16 2 8 (start_state [Some 4099]) = Returns tt s1 /\
    destroyMemoryPool s1 = Returns tt s2 /\
    reserved s2
    = (4099, region_bytes 16 2 8) :: reserved (start_state [Some 4099]) /\
    deleted s2 = (4099 + (8 - 4099 mod 8)) :: deleted (start_state [Some 4099]) /\
    4099 < 4099 + (8 - 4099 mod 8) /\
    poolStart (this s2) = 0 /\
    freeList (this s2) = 0.
Proof.
  apply (destroy_deletes_aligned_start 16 2 8 4099 []
           (start_state [Some 4099])).
  - reflexivity.
  - split; [discriminate | reflexivity].
  - exists 3. split; [discriminate | reflexivity].
  - reflexivity.
  - reflexivity.
  - discriminate.
Defined.

(** [alignPointer] and pointers that are aligned already: it returns such a
    pointer unchanged, so applying it to its own result changes nothing; and
    when the sum does not wrap it moves a pointer up by fewer than
    [alignment] bytes. *)
Theorem alignPointer_idempotent p a :
  in_range p -> in_range a -> power_of_two a ->
  exists r,
    alignPointer p a = Val r /\
    alignPointer r a = Val r /\
    (p mod a = 0 -> r = p) /\
    (p + a <= modulus -> 0 <= r - p < a).
Proof.
  intros Hp Ha Hpow. pose proof (power_of_two_pos _ Hpow) as Hpos.
  pose proof (adjustment_bounds p a Hpos) as Hadj.
  assert (Hfix : forall q, in_range q -> q mod a = 0 ->
                           alignPointer q a = Val q).
  { intros q Hq Hmod. rewrite alignPointer_value by assumption.
    rewrite Hmod, Z.sub_0_r, Z.mod_same, Z.add_0_r by lia.
    f_equal. now apply wrap_small. }
  exists (wrap (p + (a - p mod a) mod a)).
  split; [now apply alignPointer_value|].
  split; [|split].
  - apply Hfix; [apply wrap_range|].
    apply wrap_multiple;
      [assumption|unfold in_range in Ha; lia|now apply aligned_multiple].
  - intros Hmod. pose proof (Hfix p Hp Hmod) as H.
    rewrite alignPointer_value in H by assumption. now injection H.
  - intros Hfit. unfold in_range in Hp. rewrite wrap_small by lia. lia.
Qed.

Lemma alignPointer_idempotent_witness :
  exists r,
    alignPointer 4099 8 = Val r /\
    alignPointer r 8 = Val r /\
    (4099 mod 8 = 0 -> r = 4099) /\
    (4099 + 8 <= modulus -> 0 <= r - 4099 < 8).
Proof.
  apply (alignPointer_idempotent 4099 8).
  - split; [discriminate | reflexivity].
  - split; [discriminate | reflexivity].
  - exists 3. split; [discriminate | reflexivity].
Defined.

Lemma lseg_prefix m h l1 l2 t :
  lseg m h (l1 ++ l2) t -> lseg m h l1 (hd t l2).
Proof.
  revert h. induction l1 as [|b l1 IH]; intros h H.
  - destruct l2 as [|c l2]; simpl in *; [exact H|]. now destruct H.
  - destruct H as [Hh [Hb Hrest]]. cbn [lseg]. auto.
Qed.

(** When [reset] does bring every block back.  After a construction with
    [n >= 1] blocks of eight bytes or more on a region inside the address
    space and [k <= n] allocations (no release, no growth), let the consumers
    write memory in any way that leaves the first eight bytes of every slot
    of the region, its link, as they are.  Then [reset] leaves the free list
    as the full chain of the region's [n] slots and the counter at 0.  The
    links are all that [reset] relies on: it relinks nothing itself. *)
Theorem reset_restores_intact_links bs n a raw rest k s :
  new_results s = Some raw :: rest ->
  in_range a -> power_of_two a ->
  ptr_bytes <= bs -> 1 <= n ->
  0 < raw -> bs * n + a - 1 < modulus ->
  raw + region_bytes bs n a <= modulus ->
  in_range (usedBlocks (this s)) ->
  (k <= Z.to_nat n)%nat ->
  exists s1 s2,
    MemoryPool_ctor bs n a s = Returns tt s1 /\
    allocate_n k s1
    = Returns (firstn k (slots (poolStart (this s1)) bs (Z.to_nat n))) s2 /\
    forall written : mem,
      (forall b x, In b (slots (poolStart (this s1)) bs (Z.to_nat n)) ->
                   b <= x < b + ptr_bytes -> written x = heap s2 x) ->
      exists s3,
        reset (upd_heap (fun _ => written) s2) = Returns tt s3 /\
        heap s3 = written /\
        free_list_is (heap s3) (freeList (this s3))
          (slots (poolStart (this s1)) bs (Z.to_nat n)) /\
        usedBlocks (this s3) = 0 /\
        totalBlocks (this s3) = n.
Proof.
  intros Hnew Ha Hpow Hbs Hn Hraw Hsize Hfit Hused Hk.
  destruct (constructed_facts bs n a raw rest s Ha Hpow Hbs Hn Hraw Hsize Hfit)
    as (Hstart & Hbounds & _ & Hlist & _).
  set (s1 := constructed bs n a raw rest s) in *.
  rewrite <- Hstart in Hlist.
  set (l := slots (poolStart (this s1)) bs (Z.to_nat n)) in *.
  assert (Hhead : freeList (this s1) = poolStart (this s1)) by reflexivity.
  pose proof Hlist as Hsplit. unfold free_list_is in Hsplit.
  rewrite <- (firstn_skipn k l) in Hsplit. apply lseg_prefix in Hsplit.
  rewrite <- Hhead in Hsplit.
  destruct (allocate_n_prefix (firstn k l) (hd 0 (skipn k l)) s1)
    as [s2 [Hrun Hfacts]]; [reflexivity|exact Hused|exact Hsplit|].
  rewrite firstn_length_le in Hrun by (unfold l; rewrite slots_length; lia).
  destruct Hfacts as (_ & _ & H3 & _ & _ & H6 & _ & H8 & _).
  exists s1, s2.
  split; [now apply ctor_run|]. split; [exact Hrun|].
  intros written Hlinks. eexists. split; [reflexivity|].
  cbn [this heap freeList usedBlocks totalBlocks upd_this upd_heap
       with_freeList with_usedBlocks poolStart].
  rewrite H6, H8. split; [reflexivity|]. split; [|split; reflexivity].
  apply lseg_frame with (m := heap s1); [|exact Hlist].
  intros b Hb. apply load_ptr_ext. intros x Hx.
  rewrite (Hlinks b x Hb Hx). now rewrite H3.
Qed.

Lemma reset_restores_intact_links_witness :
  exists s1 s2,
    MemoryPool_ctor 16 2 8 (start_state [Some 4099]) = Returns tt s1 /\
    allocate_n 1 s1
    = Returns (firstn 1 (slots (poolStart (this s1)) 16 (Z.to_nat 2))) s2 /\
    forall written : mem,
      (forall b x, In b (slots (poolStart (this s1)) 16 (Z.to_nat 2)) ->
                   b <= x < b + ptr_bytes -> written x = heap s2 x) ->
      exists s3,
        reset (upd_heap (fun _ => written) s2) = Returns tt s3 /\
        heap s3 = written /\
        free_list_is (heap s3) (freeList (this s3))
          (slots (poolStart (this s1)) 16 (Z.to_nat 2)) /\
        usedBlocks (this s3) = 0 /\
        totalBlocks (this s3) = 2.
Proof.
  apply (reset_restores_intact_links 16 2 8 4099 [] 1
           (start_state [Some 4099])).
  - reflexivity.
  - split; [discriminate | reflexivity].
  - exists 3. split; [discriminate | reflexivity].
  - discriminate.
  - discriminate.
  - reflexivity.
  - reflexivity.
  - discriminate.
  - split; [discriminate | reflexivity].
  - repeat constructor.
Defined.





End PoolCalls.

(** * The consumer of the pool *)

(** ** Nodes in memory *)

Section NodeFacts.

(** [m'] is [m] except for the bytes in [[lo, hi)]. *)
Definition same_outside (lo hi : Z) (m m' : mem) : Prop :=
  forall x, x < lo \/ hi <= x -> m' x = m x.

Lemma same_outside_refl lo hi m : same_outside lo hi m m.
Proof. intros x _. reflexivity. Qed.

Lemma same_outside_trans lo hi m1 m2 m3 :
  same_outside lo hi m1 m2 -> same_outside lo hi m2 m3 ->
  same_outside lo hi m1 m3.
Proof. intros H12 H23 x Hx. rewrite H23, H12; auto. Qed.

Lemma same_outside_wider lo hi lo' hi' m m' :
  lo' <= lo -> hi <= hi' ->
  same_outside lo hi m m' -> same_outside lo' hi' m m'.
Proof. intros Hlo Hhi H x Hx. apply H. lia. Qed.

Lemma store_ptr_same_outside m a v :
  same_outside a (a + 8) m (store_ptr m a v).
Proof. intros x Hx. apply store_ptr_outside. unfold ptr_bytes. lia. Qed.

Lemma store_int_same_outside m a v :
  same_outside a (a + 4) m (store_int m a v).
Proof.
  intros x Hx. unfold store_int. apply store_bytes_outside.
  rewrite encode_le_length. lia.
Qed.

Lemma set_next_same_outside m p v :
  same_outside (p + 8) (p + 16) m (set_next m p v).
Proof.
  intros x Hx. unfold set_next, next_offset.
  apply store_ptr_outside. unfold ptr_bytes. lia.
Qed.

Lemma construct_node_same_outside m b v :
  same_outside b (b + 16) m (construct_node m b v).
Proof.
  unfold construct_node.
  apply same_outside_trans with (m2 := store_int m b v).
  - apply same_outside_wider with (lo := b) (hi := b + 4); try lia.
    apply store_int_same_outside.
  - apply same_outside_wider with (lo := b + 8) (hi := b + 16); try lia.
    apply set_next_same_outside.
Qed.

Lemma load_ptr_same lo hi m m' a :
  same_outside lo hi m m' -> a + 8 <= lo \/ hi <= a ->
  load_ptr m' a = load_ptr m a.
Proof.
  intros H Ha. apply load_ptr_ext. intros x Hx. apply H.
  unfold ptr_bytes in Hx. lia.
Qed.

Lemma node_next_same lo hi m m' p :
  same_outside lo hi m m' -> p + 16 <= lo \/ hi <= p + 8 ->
  node_next m' p = node_next m p.
Proof.
  intros H Hp. unfold node_next, next_offset.
  apply (load_ptr_same lo hi); [exact H|lia].
Qed.

Lemma node_data_same lo hi m m' p :
  same_outside lo hi m m' -> p + 4 <= lo \/ hi <= p ->
  node_data m' p = node_data m p.
Proof.
  intros H Hp. unfold node_data, load_int. f_equal. f_equal.
  apply load_bytes_ext. intros x Hx. apply H. lia.
Qed.

Lemma sint_of_int v : int_range v -> sint (v mod 2 ^ 32) = v.
Proof.
  unfold int_range, sint. intros Hv.
  rewrite Zplus_mod_idemp_l. rewrite Z.mod_small; lia.
Qed.

Lemma load_store_int m a v :
  int_range v -> load_int (store_int m a v) a = v.
Proof.
  intros Hv. unfold load_int, store_int.
  change 4%nat with (length (encode_le 4 v)) at 2.
  rewrite load_store_bytes, encode_le_bytes, decode_encode_le.
  now apply sint_of_int.
Qed.

Lemma node_next_set_next m p v :
  in_range v -> node_next (set_next m p v) p = v.
Proof.
  intros Hv. unfold node_next, set_next.
  rewrite load_store_same. now apply wrap_small.
Qed.

Lemma node_data_construct m b v :
  int_range v -> node_data (construct_node m b v) b = v.
Proof.
  intros Hv. unfold construct_node.
  rewrite (node_data_same (b + 8) (b + 16) (store_int m b v));
    [|apply set_next_same_outside|lia].
  now apply load_store_int.
Qed.

Lemma node_next_construct m b v : node_next (construct_node m b v) b = 0.
Proof.
  unfold construct_node. apply node_next_set_next.
  split; [lia|apply modulus_pos].
Qed.

End NodeFacts.

(** ** Lists of nodes *)

Section ListFacts.

Lemma list_seg_app m h l1 mid l2 t :
  list_seg m h l1 mid -> list_seg m mid l2 t -> list_seg m h (l1 ++ l2) t.
Proof.
  revert h. induction l1 as [|p l1 IH]; intros h H1 H2; simpl in *.
  - now subst.
  - destruct H1 as [Hh [Hp Hrest]]. repeat split; auto.
Qed.

Lemma list_seg_frame m m' h ns t :
  (forall p, In p ns -> node_next m' p = node_next m p) ->
  list_seg m h ns t -> list_seg m' h ns t.
Proof.
  revert h. induction ns as [|p ns IH]; intros h Hsame H; simpl in *; auto.
  destruct H as [Hh [Hp Hrest]]. repeat split; auto.
  rewrite Hsame by auto. apply IH; auto.
Qed.

Lemma list_seg_split m h l1 l2 t :
  list_seg m h (l1 ++ l2) t ->
  exists mid, list_seg m h l1 mid /\ list_seg m mid l2 t.
Proof.
  revert h. induction l1 as [|p l1 IH]; intros h H; simpl in *.
  - exists h. split; [reflexivity|exact H].
  - destruct H as [Hh [Hp Hrest]].
    destruct (IH _ Hrest) as [mid [H1 H2]].
    exists mid. repeat split; auto.
Qed.

Lemma all_apart_app l1 l2 :
  all_apart (l1 ++ l2) ->
  all_apart l1 /\ all_apart l2 /\
  (forall p q, In p l1 -> In q l2 -> apart p q).
Proof.
  induction l1 as [|a l1 IH]; simpl.
  - intros H. repeat split; auto. intros p q [].
  - intros [Ha Hrest]. destruct (IH Hrest) as [H1 [H2 H12]].
    repeat split; auto.
    + intros q Hq. apply Ha. apply in_or_app. auto.
    + intros p q [<-|Hp] Hq; [|now apply H12].
      apply Ha. apply in_or_app. auto.
Qed.

Lemma apart_sym p q : apart p q -> apart q p.
Proof. unfold apart. lia. Qed.

Lemma all_apart_NoDup l : all_apart l -> NoDup l.
Proof.
  induction l as [|a l IH]; simpl; intros H; constructor.
  - intros Hin. destruct H as [Ha _]. specialize (Ha a Hin).
    unfold apart, node_bytes in Ha. lia.
  - apply IH. apply H.
Qed.

End ListFacts.

(** ** Walking a list *)

Section Walks.

Lemma length_loop_spec m ns : forall h acc bound,
  list_at m h ns ->
  (length ns < bound)%nat ->
  0 <= acc -> acc + Z.of_nat (length ns) < 2 ^ 31 ->
  length_loop bound m h acc = Some (acc + Z.of_nat (length ns)).
Proof.
  unfold list_at.
  induction ns as [|p ns IH]; intros h acc bound Hlist Hbound Hacc Hfit;
    (destruct bound as [|k]; [simpl in Hbound; lia|]); cbn [length_loop].
  - simpl in Hlist. subst h. cbn [Z.eqb length Z.of_nat]. f_equal. lia.
  - destruct Hlist as [-> [Hp Hrest]].
    apply Z.eqb_neq in Hp. rewrite Hp.
    cbn [length] in *. rewrite Nat2Z.inj_succ in *.
    assert (Hs : sint (acc + 1) = acc + 1).
    { unfold sint. rewrite Z.mod_small; lia. }
    rewrite Hs. rewrite (IH _ (acc + 1) k Hrest); [f_equal; lia|lia|lia|lia].
Qed.

Lemma display_loop_spec m ns : forall h bound,
  list_at m h ns ->
  (length ns < bound)%nat ->
  display_loop bound m h = Some (values m ns).
Proof.
  unfold list_at.
  induction ns as [|p ns IH]; intros h bound Hlist Hbound;
    (destruct bound as [|k]; [simpl in Hbound; lia|]); cbn [display_loop].
  - simpl in Hlist. subst h. reflexivity.
  - destruct Hlist as [-> [Hp Hrest]].
    apply Z.eqb_neq in Hp. rewrite Hp.
    rewrite (IH _ k Hrest) by (cbn [length] in Hbound; lia).
    reflexivity.
Qed.

(** [getLength] and [display] on a list that ends: with the nodes [ns]
    from [head] to null, fewer than [2^31] of them, [getLength] returns their
    number and [display] prints their values in list order; neither changes
    the list, the pool or memory. *)
Theorem getLength_and_display ns bound l s :
  list_at (heap s) (head l) ns ->
  (length ns < bound)%nat ->
  Z.of_nat (length ns) < 2 ^ 31 ->
  getLength bound l s = Done (Z.of_nat (length ns)) l s /\
  display bound l s = Done (values (heap s) ns) l s.
Proof.
  intros Hlist Hbound Hfit. unfold getLength, display, lbind, get_head, bounded.
  rewrite (length_loop_spec (heap s) ns (head l) 0 bound) by (auto; lia).
  rewrite (display_loop_spec (heap s) ns (head l) bound) by auto.
  split; reflexivity.
Qed.

(** A list never ends when a node links to itself: no bound is large enough
    for [getLength] to return. *)
Lemma length_loop_cycle m p : forall bound acc,
  p <> 0 -> node_next m p = p -> length_loop bound m p acc = None.
Proof.
  induction bound as [|k IH]; intros acc Hp Hself; cbn [length_loop].
  - reflexivity.
  - apply Z.eqb_neq in Hp. rewrite Hp, Hself. apply IH; auto.
    now apply Z.eqb_neq.
Qed.

Lemma last_loop_spec m ns p : forall h bound,
  list_at m h (ns ++ [p]) ->
  (length ns < bound)%nat ->
  last_loop bound m h = Some p.
Proof.
  unfold list_at.
  induction ns as [|q ns IH]; intros h bound Hlist Hbound;
    (destruct bound as [|k]; [simpl in Hbound; lia|]); cbn [last_loop].
  - destruct Hlist as [-> [Hp Hend]]. simpl in Hend. rewrite Hend.
    reflexivity.
  - destruct Hlist as [-> [Hq Hrest]].
    assert (Hnext : node_next m q <> 0).
    { destruct ns; simpl in Hrest; destruct Hrest as [-> [Hne _]]; exact Hne. }
    apply Z.eqb_neq in Hnext. rewrite Hnext.
    apply IH; [exact Hrest|cbn [length] in Hbound; lia].
Qed.

End Walks.

(** ** Writes that leave other blocks alone *)

Section Frames.

Ltac by_frame lem :=
  intros; unfold apart, node_bytes in *;
  first [ eapply node_next_same; [apply lem|lia]
        | eapply node_data_same; [apply lem|lia]
        | eapply load_ptr_same; [apply lem|lia] ].

Lemma construct_keeps_next m b v p :
  apart p b -> node_next (construct_node m b v) p = node_next m p.
Proof. by_frame construct_node_same_outside. Qed.

Lemma construct_keeps_data m b v p :
  apart p b -> node_data (construct_node m b v) p = node_data m p.
Proof. by_frame construct_node_same_outside. Qed.

Lemma construct_keeps_link m b v c :
  apart c b -> load_ptr (construct_node m b v) c = load_ptr m c.
Proof. by_frame construct_node_same_outside. Qed.

Lemma set_next_keeps_next m q v p :
  apart p q -> node_next (set_next m q v) p = node_next m p.
Proof. by_frame set_next_same_outside. Qed.

Lemma set_next_keeps_data m q v p :
  p = q \/ apart p q -> node_data (set_next m q v) p = node_data m p.
Proof. by_frame set_next_same_outside. Qed.

Lemma set_next_keeps_link m q v c :
  apart c q -> load_ptr (set_next m q v) c = load_ptr m c.
Proof. by_frame set_next_same_outside. Qed.

Lemma store_ptr_keeps_next m q v p :
  p = q \/ apart p q -> node_next (store_ptr m q v) p = node_next m p.
Proof. by_frame store_ptr_same_outside. Qed.

Lemma store_ptr_keeps_data m q v p :
  apart p q -> node_data (store_ptr m q v) p = node_data m p.
Proof. by_frame store_ptr_same_outside. Qed.

Lemma store_ptr_keeps_link m q v c :
  apart c q -> load_ptr (store_ptr m q v) c = load_ptr m c.
Proof. by_frame store_ptr_same_outside. Qed.

Lemma list_seg_head m h ns t :
  ns <> [] -> list_seg m h ns t -> h <> 0 /\ In h ns.
Proof.
  destruct ns as [|p ns]; [congruence|].
  intros _ [-> [Hp _]]. split; [exact Hp|now left].
Qed.

End Frames.

(** ** Insertion *)

Section Insertion.

(** [insert] when the pool has a free block: the closed form of the call on
    an empty list and on a list whose last node is known. *)
Lemma insert_run_empty bound value l s :
  lock (spinlock (this s)) = false ->
  freeList (this s) <> 0 ->
  head l = 0 ->
  insert bound value l s
  = Done tt {| list_spinlock := list_spinlock l; head := freeList (this s) |}
      (upd_heap (fun m => construct_node m (freeList (this s)) value)
         (popped s)).
Proof.
  intros Hlock Hfree Hhead.
  unfold insert, lbind at 1, on_pool.
  rewrite (allocateBlock_pop s Hlock Hfree).
  apply Z.eqb_neq in Hfree. rewrite Hfree.
  unfold lbind, write_heap, get_head. rewrite Hhead. reflexivity.
Qed.

Lemma insert_run_last bound value last l s :
  lock (spinlock (this s)) = false ->
  freeList (this s) <> 0 ->
  head l <> 0 ->
  last_loop bound (construct_node (heap s) (freeList (this s)) value) (head l)
  = Some last ->
  insert bound value l s
  = Done tt l
      (upd_heap (fun m => set_next m last (freeList (this s)))
         (upd_heap (fun m => construct_node m (freeList (this s)) value)
            (popped s))).
Proof.
  intros Hlock Hfree Hhead Hlast.
  unfold insert, lbind at 1, on_pool.
  rewrite (allocateBlock_pop s Hlock Hfree).
  apply Z.eqb_neq in Hfree. rewrite Hfree.
  unfold lbind, write_heap, get_head, bounded.
  apply Z.eqb_neq in Hhead. rewrite Hhead.
  cbn [heap upd_heap popped]. rewrite Hlast. reflexivity.
Qed.

(** [insert] appends.  On an unlocked pool whose free list is [b :: rest]
    and a list of the nodes [ns], all blocks pairwise apart, [insert value]
    takes the block [b] from the pool, builds the node in it and links it
    after the last node: the list is then [ns] followed by [b], its values
    are the old values followed by [value], the values and order of the old
    nodes are as before, and the pool's free list is [rest]. *)
Theorem insert_appends value b rest ns bound l s :
  lock (spinlock (this s)) = false ->
  in_range (freeList (this s)) ->
  free_list_is (heap s) (freeList (this s)) (b :: rest) ->
  list_at (heap s) (head l) ns ->
  all_apart (ns ++ b :: rest) ->
  int_range value ->
  (length ns <= bound)%nat ->
  exists l' s',
    insert bound value l s = Done tt l' s' /\
    list_at (heap s') (head l') (ns ++ [b]) /\
    values (heap s') (ns ++ [b]) = values (heap s) ns ++ [value] /\
    free_list_is (heap s') (freeList (this s')) rest /\
    usedBlocks (this s') = wrap (usedBlocks (this s) + 1) /\
    new_results s' = new_results s /\
    list_spinlock l' = list_spinlock l.
Proof.
  intros Hlock Hrange [Hhead [Hb Hrest]] Hlist Hapart Hvalue Hbound.
  subst b. set (b := freeList (this s)) in *.
  destruct (all_apart_app _ _ Hapart) as [Hns [[Hb_rest Hrest_apart] Hcross]].
  assert (Hnb : forall p, In p ns -> apart p b).
  { intros p Hp. apply Hcross; [exact Hp|now left]. }
  assert (Hnr : forall p c, In p ns -> In c rest -> apart p c).
  { intros p c Hp Hc. apply Hcross; [exact Hp|now right]. }
  set (m := heap s) in *.
  set (m1 := construct_node m b value).
  assert (Hrest1 : lseg m1 (load_ptr m b) rest 0).
  { apply lseg_frame with (m := m); [|exact Hrest].
    intros c Hc. apply construct_keeps_link. apply apart_sym. auto. }
  destruct ns as [|p0 ns0] eqn:Hns_eq.
  - (* empty list *)
    assert (Hh : head l = 0) by exact Hlist.
    eexists. eexists.
    split; [exact (insert_run_empty bound value l s Hlock Hb Hh)|].
    cbn [head heap upd_heap popped this freeList usedBlocks new_results
         list_spinlock app values map].
    fold b m m1.
    split.
    { unfold list_at. cbn [list_seg].
      split; [reflexivity|]. split; [exact Hb|apply node_next_construct]. }
    split; [unfold m1; now rewrite node_data_construct|].
    split; [exact Hrest1|]. repeat split.
  - (* a list with a last node *)
    rewrite <- Hns_eq in *.
    assert (Hne : ns <> []) by (rewrite Hns_eq; discriminate).
    destruct (exists_last Hne) as [init [last Hsplit]].
    destruct (list_seg_head _ _ _ _ Hne Hlist) as [Hh _].
    assert (Hlast_in : In last ns).
    { rewrite Hsplit. apply in_or_app. right. now left. }
    assert (Hlist1 : list_at m1 (head l) ns).
    { apply list_seg_frame with (m := m); [|exact Hlist].
      intros p Hp. apply construct_keeps_next. auto. }
    assert (Hlen : (length init < bound)%nat).
    { rewrite Hsplit, length_app in Hbound. simpl in Hbound. lia. }
    assert (Hloop : last_loop bound m1 (head l) = Some last).
    { apply last_loop_spec with (ns := init); [|exact Hlen].
      rewrite <- Hsplit. exact Hlist1. }
    eexists. eexists.
    split; [exact (insert_run_last bound value last l s Hlock Hb Hh Hloop)|].
    cbn [head heap upd_heap popped this freeList usedBlocks new_results
         list_spinlock].
    fold b m m1. set (m2 := set_next m1 last b).
    assert (Hinit_last : forall p, In p init -> apart p last).
    { intros p Hp. rewrite Hsplit in Hns.
      destruct (all_apart_app _ _ Hns) as [_ [_ Hx]].
      apply Hx; [exact Hp|now left]. }
    unfold list_at in Hlist1. rewrite Hsplit in Hlist1.
    destruct (list_seg_split _ _ _ _ _ Hlist1) as [mid [Hseg1 Hseg2]].
    destruct Hseg2 as [-> [Hlast_ne Hlast_next]].
    split.
    { unfold list_at. rewrite Hsplit, <- app_assoc.
      apply list_seg_app with (mid := last).
      - apply list_seg_frame with (m := m1); [|exact Hseg1].
        intros p Hp. apply set_next_keeps_next. auto.
      - cbn [app list_seg]. split; [reflexivity|]. split; [exact Hlast_ne|].
        unfold m2. rewrite node_next_set_next by exact Hrange.
        split; [reflexivity|]. split; [exact Hb|].
        rewrite set_next_keeps_next by (apply apart_sym; auto).
        apply node_next_construct. }
    split.
    { unfold values. rewrite map_app. cbn [map]. f_equal.
      - apply map_ext_in. intros p Hp. unfold m2.
        rewrite set_next_keeps_data.
        + apply construct_keeps_data. auto.
        + rewrite Hsplit in Hp. apply in_app_or in Hp as [Hp|[<-|[]]];
            [right; auto|now left].
      - f_equal. unfold m2.
        rewrite set_next_keeps_data by (right; apply apart_sym; auto).
        now apply node_data_construct. }
    split.
    { apply lseg_frame with (m := m1); [|exact Hrest1].
      intros c Hc. apply set_next_keeps_link. apply apart_sym. auto. }
    repeat split.
Qed.

End Insertion.

(** ** Removal *)

Section Removal.

Lemma last_cons_default (l : list Z) : forall p d,
  last (p :: l) d = last l p.
Proof.
  induction l as [|q l IH]; intros p d; [reflexivity|].
  change (last (p :: q :: l) d) with (last (q :: l) d).
  rewrite !IH. reflexivity.
Qed.

Lemma last_or_nil (l : list Z) :
  l = [] \/ exists l' a, l = l' ++ [a].
Proof.
  destruct l as [|p l]; [now left|right].
  destruct (@exists_last Z (p :: l)) as [l' [a H]]; [discriminate|].
  now exists l', a.
Qed.

Lemma find_loop_absent m value ns : forall h previous bound,
  list_at m h ns ->
  (forall p, In p ns -> node_data m p <> value) ->
  (length ns < bound)%nat ->
  find_loop bound m h previous value = Some (0, last ns previous).
Proof.
  unfold list_at.
  induction ns as [|p ns IH]; intros h previous bound Hlist Hno Hbound;
    (destruct bound as [|k]; [simpl in Hbound; lia|]); cbn [find_loop].
  - simpl in Hlist. subst h. reflexivity.
  - destruct Hlist as [-> [Hp Hrest]].
    apply Z.eqb_neq in Hp. rewrite Hp.
    assert (Hd : node_data m p <> value) by (apply Hno; now left).
    apply Z.eqb_neq in Hd. rewrite Hd. cbn [negb andb].
    rewrite (IH _ p k Hrest); [|intros q Hq; apply Hno; now right
                               |cbn [length] in Hbound; lia].
    now rewrite last_cons_default.
Qed.

Lemma find_loop_found m value x post pre : forall h previous bound,
  list_at m h (pre ++ x :: post) ->
  (forall p, In p pre -> node_data m p <> value) ->
  node_data m x = value ->
  (length pre < bound)%nat ->
  find_loop bound m h previous value = Some (x, last pre previous).
Proof.
  unfold list_at.
  induction pre as [|p pre IH]; intros h previous bound Hlist Hno Hx Hbound;
    (destruct bound as [|k]; [simpl in Hbound; lia|]); cbn [find_loop].
  - destruct Hlist as [-> [Hne _]].
    apply Z.eqb_neq in Hne. rewrite Hne.
    apply Z.eqb_eq in Hx. rewrite Hx. reflexivity.
  - destruct Hlist as [-> [Hp Hrest]].
    apply Z.eqb_neq in Hp. rewrite Hp.
    assert (Hd : node_data m p <> value) by (apply Hno; now left).
    apply Z.eqb_neq in Hd. rewrite Hd. cbn [negb andb].
    rewrite (IH _ p k Hrest); [|intros q Hq; apply Hno; now right
                               |exact Hx|cbn [length] in Hbound; lia].
    now rewrite last_cons_default.
Qed.

(** [remove] of a value that no node holds, the empty list included: the
    call returns and the list, the pool and memory are exactly as before. *)
Theorem remove_absent_value value ns bound l s :
  list_at (heap s) (head l) ns ->
  (forall p, In p ns -> node_data (heap s) p <> value) ->
  (length ns < bound)%nat ->
  remove bound value l s = Done tt l s.
Proof.
  intros Hlist Hno Hbound.
  unfold remove, lbind at 1, get_head.
  destruct (head l =? 0) eqn:Hh; [reflexivity|].
  unfold lbind, bounded.
  rewrite (find_loop_absent (heap s) value ns (head l) 0 bound Hlist Hno Hbound).
  reflexivity.
Qed.

(** [remove] of a value that node [x] holds and no earlier node does.  [x]
    is unlinked and its block is pushed on the pool's free list: the list is
    then the other nodes in their order, with their values, and the free list
    is [x] followed by what it was.  The counter [usedBlocks] stays as it
    was. *)
Theorem remove_first_match value pre x post old bound l s :
  lock (spinlock (this s)) = false ->
  in_range (freeList (this s)) ->
  list_at (heap s) (head l) (pre ++ x :: post) ->
  free_list_is (heap s) (freeList (this s)) old ->
  all_apart ((pre ++ x :: post) ++ old) ->
  (forall p, In p pre -> node_data (heap s) p <> value) ->
  node_data (heap s) x = value ->
  (length pre < bound)%nat ->
  exists l' s',
    remove bound value l s = Done tt l' s' /\
    list_at (heap s') (head l') (pre ++ post) /\
    values (heap s') (pre ++ post) = values (heap s) (pre ++ post) /\
    free_list_is (heap s') (freeList (this s')) (x :: old) /\
    usedBlocks (this s') = usedBlocks (this s) /\
    list_spinlock l' = list_spinlock l.
Proof.
  intros Hlock Hrange Hlist Hfree Hapart Hno Hx Hbound.
  set (m := heap s) in *.
  destruct (all_apart_app _ _ Hapart) as [Hnodes [_ Hcross]].
  destruct (all_apart_app _ _ Hnodes) as [Hpre [[Hx_post Hpost] Hpre_rest]].
  assert (Hpx : forall p, In p pre -> apart p x).
  { intros p Hp. apply Hpre_rest; [exact Hp|now left]. }
  assert (Hox : forall c, In c old -> apart c x).
  { intros c Hc. apply apart_sym. apply Hcross; [|exact Hc].
    apply in_or_app. right. now left. }
  pose proof Hlist as Hsplit. unfold list_at in Hsplit.
  apply list_seg_split in Hsplit as [mid [Hseg_pre Hseg_x]].
  destruct Hseg_x as [-> [Hx_ne Hseg_post]].
  assert (Hhead_ne : head l <> 0).
  { apply (list_seg_head m (head l) (pre ++ x :: post) 0);
      [destruct pre; discriminate|exact Hlist]. }
  assert (Hfind := find_loop_found m value x post pre (head l) 0 bound
                     Hlist Hno Hx Hbound).
  unfold remove, lbind at 1, get_head.
  apply Z.eqb_neq in Hhead_ne. rewrite Hhead_ne.
  unfold lbind at 1, bounded. fold m. rewrite Hfind.
  apply Z.eqb_neq in Hx_ne. rewrite Hx_ne. apply Z.eqb_neq in Hx_ne.
  unfold lbind at 1. cbv beta iota.
  destruct (last_or_nil pre) as [->|[pre' [prev ->]]].
  - (* the match is the head node *)
    destruct Hseg_pre. rewrite Z.eqb_refl.
    unfold lbind, read_heap, set_head, on_pool.
    rewrite (deallocateBlock_run (head l) s Hlock).
    eexists. eexists. split; [reflexivity|].
    cbn [head heap this freeList usedBlocks released list_spinlock app].
    fold m.
    assert (Hpost_x : forall p, In p post -> apart p (head l)).
    { intros p Hp. apply apart_sym. now apply Hx_post. }
    split.
    { apply list_seg_frame with (m := m); [|exact Hseg_post].
      intros p Hp. apply store_ptr_keeps_next. right. auto. }
    split.
    { apply map_ext_in. intros p Hp. apply store_ptr_keeps_data. auto. }
    split; [|split; reflexivity].
    unfold free_list_is. cbn [lseg]. split; [reflexivity|].
    split; [exact Hx_ne|].
    rewrite load_store_same, wrap_small by exact Hrange.
    apply lseg_frame with (m := m); [|exact Hfree].
    intros c Hc. apply store_ptr_keeps_link. auto.
  - (* the match has a node before it *)
    rewrite last_last.
    assert (Hneq : x <> head l).
    { destruct (list_seg_head m (head l) (pre' ++ [prev]) x) as [_ Hin];
        [destruct pre'; discriminate|exact Hseg_pre|].
      specialize (Hpx _ Hin). unfold apart, node_bytes in Hpx. lia. }
    apply Z.eqb_neq in Hneq. rewrite Hneq.
    unfold lbind, write_heap, on_pool.
    rewrite deallocateBlock_run by exact Hlock.
    eexists. eexists. split; [reflexivity|].
    cbn [head heap this freeList usedBlocks released upd_heap list_spinlock].
    fold m. set (t := node_next m x).
    set (m1 := set_next m prev t).
    apply list_seg_split in Hseg_pre as [mid [Hseg_pre' Hprev]].
    destruct Hprev as [-> [Hprev_ne Hprev_next]].
    assert (Hprev_in : In prev (pre' ++ [prev]))
      by (apply in_or_app; right; now left).
    destruct (all_apart_app _ _ Hpre) as [_ [_ Hpre'_prev]].
    assert (Hpp : forall p, In p pre' -> apart p prev).
    { intros p Hp. apply Hpre'_prev; [exact Hp|now left]. }
    assert (Hpost_prev : forall p, In p post -> apart p prev).
    { intros p Hp. apply apart_sym. apply Hpre_rest; [exact Hprev_in|].
      now right. }
    assert (Hpost_x : forall p, In p post -> apart p x).
    { intros p Hp. apply apart_sym. now apply Hx_post. }
    assert (Hold_prev : forall c, In c old -> apart c prev).
    { intros c Hc. apply apart_sym. apply Hcross; [|exact Hc].
      apply in_or_app. left. exact Hprev_in. }
    assert (Hlist1 : list_seg m1 (head l) ((pre' ++ [prev]) ++ post) 0).
    { rewrite <- app_assoc. apply list_seg_app with (mid := prev).
      - apply list_seg_frame with (m := m); [|exact Hseg_pre'].
        intros p Hp. apply set_next_keeps_next. auto.
      - cbn [app list_seg]. split; [reflexivity|]. split; [exact Hprev_ne|].
        unfold m1. rewrite node_next_set_next by apply load_ptr_range.
        apply list_seg_frame with (m := m); [|exact Hseg_post].
        intros p Hp. apply set_next_keeps_next. auto. }
    assert (Hrest_x : forall p, In p ((pre' ++ [prev]) ++ post) -> apart p x).
    { intros p Hp. apply in_app_or in Hp as [Hp|Hp]; auto. }
    split.
    { apply list_seg_frame with (m := m1); [|exact Hlist1].
      intros p Hp. apply store_ptr_keeps_next. right. auto. }
    split.
    { apply map_ext_in. intros p Hp.
      rewrite store_ptr_keeps_data by auto.
      apply set_next_keeps_data.
      apply in_app_or in Hp as [Hp|Hp]; [|right; auto].
      apply in_app_or in Hp as [Hp|[<-|[]]]; [right; auto|now left]. }
    split; [|split; reflexivity].
    unfold free_list_is. cbn [lseg]. split; [reflexivity|].
    split; [exact Hx_ne|].
    rewrite load_store_same, wrap_small by exact Hrange.
    apply lseg_frame with (m := m); [|exact Hfree].
    intros c Hc. rewrite store_ptr_keeps_link by auto.
    apply set_next_keeps_link. auto.
Qed.

End Removal.

(** ** Clearing *)

Section Clearing.

Lemma all_apart_middle p l1 l2 :
  all_apart (p :: l1 ++ l2) -> all_apart (l1 ++ p :: l2).
Proof.
  induction l1 as [|a l1 IH]; [auto|].
  cbn [app all_apart]. intros [Hp [Ha Hrest]]. split.
  - intros q Hq. apply in_app_or in Hq as [Hq|[<-|Hq]].
    + apply Ha. apply in_or_app. now left.
    + apply apart_sym. apply Hp. now left.
    + apply Ha. apply in_or_app. now right.
  - apply IH. cbn [all_apart]. split; [|exact Hrest].
    intros q Hq. apply Hp. now right.
Qed.

(** The loop of [clear]: every node of the list is pushed on the free
    list, first node first. *)
Lemma release_loop_spec ns : forall current old bound l s,
  lock (spinlock (this s)) = false ->
  in_range (freeList (this s)) ->
  in_range current ->
  list_at (heap s) current ns ->
  free_list_is (heap s) (freeList (this s)) old ->
  all_apart (ns ++ old) ->
  (length ns < bound)%nat ->
  exists s',
    release_loop bound current l s = Done tt l s' /\
    free_list_is (heap s') (freeList (this s')) (rev ns ++ old) /\
    lock (spinlock (this s')) = false /\
    usedBlocks (this s') = usedBlocks (this s) /\
    totalBlocks (this s') = totalBlocks (this s) /\
    new_results s' = new_results s /\
    deleted s' = deleted s.
Proof.
  induction ns as [|p ns IH];
    intros current old bound l s Hlock Hfl Hcur Hlist Hfree Hapart Hbound;
    (destruct bound as [|k]; [simpl in Hbound; lia|]); cbn [release_loop].
  - unfold list_at in Hlist. simpl in Hlist. subst current.
    exists s. repeat split; auto.
  - destruct Hlist as [-> [Hp Hrest]].
    apply Z.eqb_neq in Hp. rewrite Hp. apply Z.eqb_neq in Hp.
    unfold lbind at 1, read_heap. unfold lbind at 1, on_pool.
    rewrite (deallocateBlock_run p s Hlock).
    destruct Hapart as [Hp_rest Hrest_apart].
    destruct (IH (node_next (heap s) p) (p :: old) k l (released p s))
      as [s' [Hrun Hfacts]].
    + reflexivity.
    + exact Hcur.
    + apply load_ptr_range.
    + apply list_seg_frame with (m := heap s); [|exact Hrest].
      intros q Hq. unfold released. cbn [heap].
      apply store_ptr_keeps_next. right. apply apart_sym. apply Hp_rest.
      apply in_or_app. now left.
    + unfold released, free_list_is. cbn [heap this freeList lseg].
      split; [reflexivity|]. split; [exact Hp|].
      rewrite load_store_same, wrap_small by exact Hfl.
      apply lseg_frame with (m := heap s); [|exact Hfree].
      intros c Hc. apply store_ptr_keeps_link. apply apart_sym.
      apply Hp_rest. apply in_or_app. now right.
    + apply all_apart_middle. cbn [all_apart]. auto.
    + cbn [length] in Hbound. lia.
    + exists s'. split; [exact Hrun|].
      cbn [rev]. rewrite <- app_assoc. exact Hfacts.
Qed.

(** [clear] gives every node back.  On an unlocked list of the nodes [ns]
    and an unlocked pool whose free list is [old], all blocks pairwise apart,
    [clear] returns with an empty list (null head), both locks released and
    the pool's free list holding the nodes of the list, last node on top,
    before [old].  [usedBlocks] is as before.  The destructor does the same
    to the pool and leaves [head] pointing at the first node. *)
Theorem clear_releases_all ns old bound l s :
  lock (list_spinlock l) = false ->
  lock (spinlock (this s)) = false ->
  in_range (freeList (this s)) -> in_range (head l) ->
  list_at (heap s) (head l) ns ->
  free_list_is (heap s) (freeList (this s)) old ->
  all_apart (ns ++ old) ->
  (length ns < bound)%nat ->
  exists s',
    clear bound l s = Done tt SingleLinkedList_ctor s' /\
    SingleLinkedList_dtor bound l s
    = Done tt {| list_spinlock := {| lock := false |}; head := head l |} s' /\
    free_list_is (heap s') (freeList (this s')) (rev ns ++ old) /\
    list_at (heap s') 0 [] /\
    lock (spinlock (this s')) = false /\
    usedBlocks (this s') = usedBlocks (this s) /\
    totalBlocks (this s') = totalBlocks (this s).
Proof.
  intros Hllock Hlock Hfl Hhead Hlist Hfree Hapart Hbound.
  destruct (release_loop_spec ns (head l) old bound
              {| list_spinlock := {| lock := true |}; head := head l |} s
              Hlock Hfl Hhead Hlist Hfree Hapart Hbound)
    as [s' [Hrun (H1 & H2 & H3 & H4 & _)]].
  exists s'.
  unfold clear, SingleLinkedList_dtor, lbind, lock_list, get_head.
  rewrite Hllock. cbn [head]. rewrite Hrun.
  repeat split; auto.
Qed.

End Clearing.

(** ** Merging by a key, on plain lists *)

Section MergeBy.

Variable key : Z -> Z.

Lemma merge_by_nil_l l2 : merge_by key [] l2 = l2.
Proof. destruct l2; reflexivity. Qed.

Lemma merge_by_nil_r l1 : merge_by key l1 [] = l1.
Proof. destruct l1; reflexivity. Qed.

Lemma merge_by_cons a l1 b l2 :
  merge_by key (a :: l1) (b :: l2)
  = if key a <=? key b then a :: merge_by key l1 (b :: l2)
    else b :: merge_by key (a :: l1) l2.
Proof. reflexivity. Qed.

Lemma merge_by_perm l1 : forall l2,
  Permutation (l1 ++ l2) (merge_by key l1 l2).
Proof.
  induction l1 as [|a l1 IH1]; intros l2.
  - rewrite merge_by_nil_l. apply Permutation_refl.
  - induction l2 as [|b l2 IH2].
    + rewrite merge_by_nil_r, app_nil_r. apply Permutation_refl.
    + rewrite merge_by_cons. destruct (key a <=? key b).
      * cbn [app]. apply perm_skip. apply IH1.
      * apply Permutation_trans with (l' := b :: (a :: l1) ++ l2).
        -- apply Permutation_sym. apply Permutation_middle.
        -- apply perm_skip. apply IH2.
Qed.

Lemma merge_by_hd a l1 : forall l2 c,
  HdRel Z.le c (map key (a :: l1)) -> HdRel Z.le c (map key l2) ->
  HdRel Z.le c (map key (merge_by key (a :: l1) l2)).
Proof.
  intros [|b l2] c H1 H2.
  - rewrite merge_by_nil_r. exact H1.
  - rewrite merge_by_cons. destruct (key a <=? key b).
    + constructor. now inversion H1.
    + constructor. now inversion H2.
Qed.

Lemma merge_by_sorted l1 : forall l2,
  Sorted Z.le (map key l1) -> Sorted Z.le (map key l2) ->
  Sorted Z.le (map key (merge_by key l1 l2)).
Proof.
  induction l1 as [|a l1 IH1]; intros l2 H1 H2.
  - now rewrite merge_by_nil_l.
  - induction l2 as [|b l2 IH2].
    + now rewrite merge_by_nil_r.
    + rewrite merge_by_cons. destruct (key a <=? key b) eqn:Hab.
      * cbn [map]. inversion H1 as [|? ? Hs1 Hh1]; subst.
        constructor; [now apply IH1|].
        destruct l1 as [|a' l1].
        -- rewrite merge_by_nil_l. constructor. now apply Z.leb_le.
        -- apply merge_by_hd; [exact Hh1|].
           constructor. now apply Z.leb_le.
      * cbn [map]. inversion H2 as [|? ? Hs2 Hh2]; subst.
        constructor; [now apply IH2|].
        apply merge_by_hd; [|exact Hh2].
        constructor. apply Z.leb_gt in Hab. lia.
Qed.

End MergeBy.

Lemma merge_by_ext key key' l1 : forall l2,
  (forall p, In p (l1 ++ l2) -> key p = key' p) ->
  merge_by key l1 l2 = merge_by key' l1 l2.
Proof.
  induction l1 as [|a l1 IH1]; intros l2 H.
  - now rewrite !merge_by_nil_l.
  - induction l2 as [|b l2 IH2].
    + now rewrite !merge_by_nil_r.
    + rewrite !merge_by_cons.
      rewrite <- (H a) by now left.
      rewrite <- (H b) by (apply in_or_app; right; now left).
      destruct (key a <=? key b).
      * f_equal. apply IH1. intros p Hp. apply H. now right.
      * f_equal. apply IH2. intros p Hp. apply H.
        apply in_app_or in Hp as [Hp|Hp]; apply in_or_app; auto.
        right. now right.
Qed.

(** ** Merging and sorting nodes in place *)

Section LinksOnly.

Lemma links_only_refl ns m : links_only ns m m.
Proof. intros x _. reflexivity. Qed.

Lemma links_only_trans ns m1 m2 m3 :
  links_only ns m1 m2 -> links_only ns m2 m3 -> links_only ns m1 m3.
Proof. intros H12 H23 x Hx. rewrite H23, H12; auto. Qed.

Lemma links_only_incl ns ns' m m' :
  (forall p, In p ns -> In p ns') ->
  links_only ns m m' -> links_only ns' m m'.
Proof. intros Hincl H x Hx. apply H. intros p Hp. apply Hx. auto. Qed.

Lemma links_only_set_next ns m p v :
  In p ns -> links_only ns m (set_next m p v).
Proof.
  intros Hp x Hx. apply set_next_same_outside.
  specialize (Hx p Hp). unfold next_offset, node_bytes in Hx. lia.
Qed.

Lemma links_only_next ns m m' q :
  links_only ns m m' -> (forall p, In p ns -> apart q p) ->
  node_next m' q = node_next m q.
Proof.
  intros H Hq. unfold node_next. apply load_ptr_ext. intros x Hx.
  apply H. intros p Hp. specialize (Hq p Hp).
  unfold apart, node_bytes, next_offset, ptr_bytes in *. lia.
Qed.

Lemma links_only_data ns m m' q :
  links_only ns m m' -> (forall p, In p ns -> q = p \/ apart q p) ->
  node_data m' q = node_data m q.
Proof.
  intros H Hq. unfold node_data, load_int. do 2 f_equal.
  apply load_bytes_ext. intros x Hx.
  apply H. intros p Hp. specialize (Hq p Hp).
  unfold apart, node_bytes, next_offset in *. lia.
Qed.

Lemma all_apart_In l p q :
  all_apart l -> In p l -> In q l -> p = q \/ apart p q.
Proof.
  induction l as [|a l IH]; [intros _ []|].
  intros [Ha Hrest] [<-|Hp] [<-|Hq]; auto.
  right. apply apart_sym. auto.
Qed.

Lemma all_apart_perm l l' :
  Permutation l l' -> all_apart l -> all_apart l'.
Proof.
  induction 1 as [|a l l' Hperm IH|a b l|l1 l2 l3 H12 IH12 H23 IH23];
    cbn [all_apart]; auto.
  - intros [Ha Hrest]. split; [|auto].
    intros q Hq. apply Ha. apply (Permutation_in q (Permutation_sym Hperm) Hq).
  - intros [Hb [Ha Hrest]]. split; [|split; [|exact Hrest]].
    + intros q [<-|Hq]; [apply apart_sym; apply Hb; now left|now apply Ha].
    + intros q Hq. apply Hb. now right.
Qed.

Lemma links_only_keeps_list ns qs m m' h t :
  links_only ns m m' ->
  (forall q p, In q qs -> In p ns -> apart q p) ->
  list_seg m h qs t -> list_seg m' h qs t.
Proof.
  intros H Hapart. apply list_seg_frame.
  intros q Hq. apply (links_only_next ns); [exact H|].
  intros p Hp. now apply Hapart.
Qed.

End LinksOnly.

Section MergeNodes.

Lemma all_apart_remove l1 b l2 :
  all_apart (l1 ++ b :: l2) ->
  all_apart (l1 ++ l2) /\ forall p, In p (l1 ++ l2) -> apart p b.
Proof.
  intros H.
  apply (all_apart_perm _ (b :: l1 ++ l2)) in H;
    [|apply Permutation_sym; apply Permutation_middle].
  destruct H as [Hb Hrest]. split; [exact Hrest|].
  intros p Hp. apply apart_sym. auto.
Qed.

(** [merge] on two lists of nodes that are apart: with a bound above their
    total length it returns; the nodes are relinked in the order [merge_by]
    gives for their values, only [next] fields of these nodes are written,
    and the head is one of the two heads. *)
Lemma merge_spec m : forall bound ns1 ns2 left right,
  list_at m left ns1 -> list_at m right ns2 ->
  all_apart (ns1 ++ ns2) ->
  in_range left -> in_range right ->
  (length ns1 + length ns2 < bound)%nat ->
  exists h m',
    merge bound m left right = Some (h, m') /\
    list_at m' h (merge_by (node_data m) ns1 ns2) /\
    links_only (ns1 ++ ns2) m m' /\
    in_range h.
Proof.
  unfold list_at.
  induction bound as [|k IH];
    intros ns1 ns2 left right H1 H2 Hapart Hl Hr Hbound; [lia|].
  cbn [merge].
  destruct ns1 as [|a ns1].
  { simpl in H1. subst left. cbn [Z.eqb].
    exists right, m. rewrite merge_by_nil_l.
    split; [reflexivity|]. split; [exact H2|].
    split; [apply links_only_refl|exact Hr]. }
  destruct H1 as [-> [Ha H1]].
  apply Z.eqb_neq in Ha. rewrite Ha. apply Z.eqb_neq in Ha.
  destruct ns2 as [|b ns2].
  { simpl in H2. subst right. cbn [Z.eqb].
    exists a, m. rewrite merge_by_nil_r.
    split; [reflexivity|]. split; [cbn [list_seg]; auto|].
    split; [apply links_only_refl|exact Hl]. }
  destruct H2 as [-> [Hb H2]].
  apply Z.eqb_neq in Hb. rewrite Hb. apply Z.eqb_neq in Hb.
  rewrite merge_by_cons.
  destruct (node_data m a <=? node_data m b).
  - (* the left head goes first *)
    destruct Hapart as [Ha_rest Hrest].
    destruct (IH ns1 (b :: ns2) (node_next m a) b)
      as (h & m' & Hrun & Hlist & Hlinks & Hh);
      [exact H1|cbn [list_seg]; auto|exact Hrest|apply load_ptr_range
      |exact Hr|cbn [length app] in *; lia|].
    rewrite Hrun. exists a, (set_next m' a h).
    split; [reflexivity|]. split; [|split; [|exact Hl]].
    + cbn [list_seg]. split; [reflexivity|]. split; [exact Ha|].
      rewrite node_next_set_next by exact Hh.
      apply list_seg_frame with (m := m'); [|exact Hlist].
      intros p Hp. apply set_next_keeps_next. apply apart_sym. apply Ha_rest.
      apply (Permutation_in p (Permutation_sym (merge_by_perm _ _ _)) Hp).
    + apply links_only_trans with (m2 := m').
      * apply links_only_incl with (ns := ns1 ++ b :: ns2); [|exact Hlinks].
        intros p Hp. now right.
      * apply links_only_set_next. now left.
  - (* the right head goes first *)
    destruct (all_apart_remove (a :: ns1) b ns2 Hapart) as [Hrest Hb_rest].
    destruct (IH (a :: ns1) ns2 a (node_next m b))
      as (h & m' & Hrun & Hlist & Hlinks & Hh);
      [cbn [list_seg]; auto|exact H2|exact Hrest|exact Hl
      |apply load_ptr_range|cbn [length app] in *; lia|].
    rewrite Hrun. exists b, (set_next m' b h).
    split; [reflexivity|]. split; [|split; [|exact Hr]].
    + cbn [list_seg]. split; [reflexivity|]. split; [exact Hb|].
      rewrite node_next_set_next by exact Hh.
      apply list_seg_frame with (m := m'); [|exact Hlist].
      intros p Hp. apply set_next_keeps_next. apply Hb_rest.
      apply (Permutation_in p (Permutation_sym (merge_by_perm _ _ _)) Hp).
    + apply links_only_trans with (m2 := m').
      * apply links_only_incl with (ns := (a :: ns1) ++ ns2); [|exact Hlinks].
        intros p Hp. apply in_app_or in Hp as [Hp|Hp]; apply in_or_app;
          [now left|right; now right].
      * apply links_only_set_next. apply in_or_app. right. now left.
Qed.

End MergeNodes.

Section MiddleNode.

(** The loop of [getMiddle], with [slow] at node [s] followed by [rest] and
    [fast] at the nodes [F] further on: [slow] moves on by half the length of
    [F], and stops at a node that is not the last one. *)
Lemma middle_loop_spec m : forall bound s rest G F fast,
  list_at m s (s :: rest) ->
  rest = G ++ F -> rest <> [] ->
  list_at m fast F ->
  (length F < bound)%nat ->
  exists before mid after,
    middle_loop bound m s fast = Some mid /\
    s :: rest = before ++ mid :: after /\
    after <> [] /\
    length before = Nat.div2 (length F).
Proof.
  unfold list_at.
  induction bound as [|k IH];
    intros s rest G F fast Hslow Hrest Hne Hfast Hbound; [lia|].
  cbn [middle_loop].
  destruct F as [|f1 F].
  { simpl in Hfast. subst fast. cbn [Z.eqb negb andb].
    exists [], s, rest. split; [reflexivity|]. split; [reflexivity|].
    split; [exact Hne|reflexivity]. }
  destruct Hfast as [-> [Hf1 Hfast]].
  apply Z.eqb_neq in Hf1. rewrite Hf1. cbn [negb andb].
  destruct F as [|f2 F].
  { simpl in Hfast. rewrite Hfast. cbn [Z.eqb negb].
    exists [], s, rest. split; [reflexivity|]. split; [reflexivity|].
    split; [exact Hne|reflexivity]. }
  destruct Hfast as [Hnext [Hf2 Hfast]].
  rewrite Hnext. apply Z.eqb_neq in Hf2. rewrite Hf2. cbn [negb].
  destruct Hslow as [_ [Hs Hslow]].
  destruct rest as [|s' rest']; [congruence|].
  pose proof Hslow as Hslow'. destruct Hslow' as [Hs' _].
  rewrite Hs' in *.
  assert (Hsplit : exists G', rest' = G' ++ F /\ rest' <> []).
  { destruct G as [|g G].
    - cbn [app] in Hrest. injection Hrest as -> ->.
      exists [f2]. split; [reflexivity|discriminate].
    - cbn [app] in Hrest. injection Hrest as -> ->.
      exists (G ++ [f1; f2]). split.
      + rewrite <- app_assoc. reflexivity.
      + destruct G; discriminate. }
  destruct Hsplit as [G' [Hrest' Hne']].
  destruct (IH s' rest' G' F (node_next m f2))
    as (before & mid & after & Hrun & Heq & Hafter & Hlen);
    [exact Hslow|exact Hrest'|exact Hne'|exact Hfast
    |cbn [length] in Hbound; lia|].
  exists (s :: before), mid, after.
  split; [exact Hrun|]. split; [|split; [exact Hafter|]].
  - cbn [app]. now rewrite Heq.
  - cbn [length Nat.div2]. now rewrite Hlen.
Qed.

(** [getMiddle(node)] on a list of two nodes or more returns the node at
    position [(length - 1) / 2], which has nodes after it. *)
Lemma getMiddle_node_spec m ns h bound :
  list_at m h ns ->
  (2 <= length ns)%nat -> (length ns <= bound)%nat ->
  exists before mid after,
    getMiddle_node bound m h = Some mid /\
    ns = before ++ mid :: after /\
    after <> [] /\
    length before = Nat.div2 (length ns - 1).
Proof.
  intros Hlist Hlen Hbound.
  destruct ns as [|s [|s' rest]]; [simpl in Hlen; lia|simpl in Hlen; lia|].
  pose proof Hlist as Hl. destruct Hl as [-> [Hs [Hnext [Hs' Hrest]]]].
  unfold getMiddle_node.
  apply Z.eqb_neq in Hs. rewrite Hs, Hnext.
  apply Z.eqb_neq in Hs'. rewrite Hs'. cbn [orb]. apply Z.eqb_neq in Hs'.
  replace (length (s :: s' :: rest) - 1)%nat with (length (s' :: rest))
    by (cbn [length]; lia).
  apply (middle_loop_spec m bound s (s' :: rest) [] (s' :: rest) s').
  - exact Hlist.
  - reflexivity.
  - discriminate.
  - unfold list_at. cbn [list_seg]. auto.
  - cbn [length] in *. lia.
Qed.

End MiddleNode.

Section SortNodes.

Lemma values_agree m m' ns :
  (forall p, In p ns -> node_data m' p = node_data m p) ->
  values m' ns = values m ns.
Proof. intros H. apply map_ext_in. exact H. Qed.

(** [mergeSort(node)] on a list of nodes that are apart, with bounds above
    its length: it returns; the same nodes are linked in an order in which
    their values ascend, and only [next] fields of these nodes are
    written. *)
Lemma mergeSort_rec_spec bound : forall depth m ns h,
  list_at m h ns -> all_apart ns -> in_range h ->
  (length ns < depth)%nat -> (length ns < bound)%nat ->
  exists h' m' ns',
    mergeSort_rec bound depth m h = Some (h', m') /\
    list_at m' h' ns' /\
    Permutation ns ns' /\
    Sorted Z.le (values m ns') /\
    links_only ns m m' /\
    in_range h'.
Proof.
  induction depth as [|d IH]; intros m ns h Hlist Hapart Hh Hdepth Hbound;
    [lia|].
  cbn [mergeSort_rec].
  destruct ns as [|a [|b rest]].
  - (* no node *)
    unfold list_at in Hlist. simpl in Hlist. subst h. cbn [Z.eqb orb].
    exists 0, m, []. split; [reflexivity|]. split; [reflexivity|].
    split; [constructor|]. split; [constructor|].
    split; [apply links_only_refl|exact Hh].
  - (* one node *)
    pose proof Hlist as Hl. destruct Hl as [-> [Ha Hend]]. simpl in Hend.
    rewrite Hend, Z.eqb_refl, orb_true_r.
    exists a, m, [a]. split; [reflexivity|]. split; [exact Hlist|].
    split; [apply Permutation_refl|].
    split; [repeat constructor|].
    split; [apply links_only_refl|exact Hh].
  - (* two nodes or more *)
    set (ns := a :: b :: rest) in *.
    assert (Hcond : (h =? 0) || (node_next m h =? 0) = false).
    { destruct Hlist as [-> [Ha [Hnext [Hb _]]]].
      apply Z.eqb_neq in Ha. rewrite Ha, Hnext.
      apply Z.eqb_neq in Hb. rewrite Hb. reflexivity. }
    rewrite Hcond.
    destruct (getMiddle_node_spec m ns h bound Hlist)
      as (before & mid & after & Hmid & Hsplit & Hafter & _);
      [unfold ns; cbn [length]; lia|lia|].
    rewrite Hmid.
    set (L := before ++ [mid]).
    assert (Hns : ns = L ++ after).
    { unfold L. rewrite <- app_assoc. exact Hsplit. }
    assert (Hlen : length ns = (length L + length after)%nat).
    { rewrite Hns. apply length_app. }
    assert (HlenL : (1 <= length L)%nat).
    { unfold L. rewrite length_app. cbn [length]. lia. }
    assert (HlenR : (1 <= length after)%nat).
    { destruct after; [congruence|cbn [length]; lia]. }
    clearbody ns.
    (* the two halves, apart *)
    pose proof Hapart as HapartLR. rewrite Hns in HapartLR.
    destruct (all_apart_app _ _ HapartLR) as [HapartL [HapartR Hcross]].
    assert (Hmid_in : In mid L)
      by (unfold L; apply in_or_app; right; now left).
    unfold list_at in Hlist. rewrite Hsplit in Hlist.
    destruct (list_seg_split _ _ _ _ _ Hlist) as [x [Hbefore Hrest]].
    destruct Hrest as [-> [Hmid_ne Hafter_list]].
    set (second := node_next m mid) in *.
    set (m1 := set_next m mid 0).
    assert (Hbefore_mid : forall p, In p before -> apart p mid).
    { intros p Hp. unfold L in HapartL.
      destruct (all_apart_app _ _ HapartL) as [_ [_ Hx]].
      apply Hx; [exact Hp|now left]. }
    assert (HL1 : list_at m1 h L).
    { unfold list_at, L. apply list_seg_app with (mid := mid).
      - apply list_seg_frame with (m := m); [|exact Hbefore].
        intros p Hp. apply set_next_keeps_next. auto.
      - cbn [list_seg]. split; [reflexivity|]. split; [exact Hmid_ne|].
        unfold m1. apply node_next_set_next. split; [lia|apply modulus_pos]. }
    assert (HR1 : list_at m1 second after).
    { apply list_seg_frame with (m := m); [|exact Hafter_list].
      intros p Hp. apply set_next_keeps_next. apply apart_sym.
      now apply Hcross. }
    (* the left half *)
    destruct (IH m1 L h HL1 HapartL Hh) as
      (h2 & m2 & L' & Hrun2 & HL2 & HpermL & HsortL & Hlinks2 & Hh2);
      [lia|lia|].
    rewrite Hrun2.
    assert (HR2 : list_at m2 second after).
    { apply (links_only_keeps_list L after m1 m2); [exact Hlinks2| |exact HR1].
      intros q p Hq Hp. apply apart_sym. now apply Hcross. }
    (* the right half *)
    destruct (IH m2 after second HR2 HapartR) as
      (h3 & m3 & R' & Hrun3 & HR3 & HpermR & HsortR & Hlinks3 & Hh3);
      [apply load_ptr_range|lia|lia|].
    rewrite Hrun3.
    assert (HL3 : list_at m3 h2 L').
    { apply (links_only_keeps_list after L' m2 m3); [exact Hlinks3| |exact HL2].
      intros q p Hq Hp. apply Hcross; [|exact Hp].
      apply (Permutation_in q (Permutation_sym HpermL) Hq). }
    (* the merge *)
    assert (Hperm : Permutation ns (L' ++ R')).
    { rewrite Hns. now apply Permutation_app. }
    destruct (merge_spec m3 bound L' R' h2 h3 HL3 HR3) as
      (h4 & m4 & Hrun4 & Hlist4 & Hlinks4 & Hh4);
      [apply (all_apart_perm ns); assumption|exact Hh2|exact Hh3| |].
    { rewrite <- length_app, <- (Permutation_length Hperm). exact Hbound. }
    (* the values never change *)
    assert (Hdata1 : forall p, In p ns -> node_data m1 p = node_data m p).
    { intros p Hp. apply set_next_keeps_data.
      apply (all_apart_In ns); [exact Hapart|exact Hp|].
      rewrite Hns. apply in_or_app. now left. }
    assert (Hdata2 : forall p, In p ns -> node_data m2 p = node_data m p).
    { intros p Hp. rewrite <- Hdata1 by exact Hp.
      apply (links_only_data L); [exact Hlinks2|].
      intros q Hq. apply (all_apart_In ns); [exact Hapart|exact Hp|].
      rewrite Hns. apply in_or_app. now left. }
    assert (Hdata3 : forall p, In p ns -> node_data m3 p = node_data m p).
    { intros p Hp. rewrite <- Hdata2 by exact Hp.
      apply (links_only_data after); [exact Hlinks3|].
      intros q Hq. apply (all_apart_In ns); [exact Hapart|exact Hp|].
      rewrite Hns. apply in_or_app. now right. }
    assert (HinL' : forall p, In p L' -> In p ns).
    { intros p Hp. rewrite Hns. apply in_or_app. left.
      apply (Permutation_in p (Permutation_sym HpermL) Hp). }
    assert (HinR' : forall p, In p R' -> In p ns).
    { intros p Hp. rewrite Hns. apply in_or_app. right.
      apply (Permutation_in p (Permutation_sym HpermR) Hp). }
    assert (Hkeys : merge_by (node_data m3) L' R'
                    = merge_by (node_data m) L' R').
    { apply merge_by_ext. intros p Hp. apply Hdata3.
      apply in_app_or in Hp as [Hp|Hp]; auto. }
    rewrite Hkeys in Hlist4.
    exists h4, m4, (merge_by (node_data m) L' R').
    split; [exact Hrun4|]. split; [exact Hlist4|].
    split.
    { apply Permutation_trans with (l' := L' ++ R'); [exact Hperm|].
      apply merge_by_perm. }
    split.
    { unfold values. apply merge_by_sorted.
      - change (Sorted Z.le (values m L')).
        rewrite <- (values_agree m m1 L'); [exact HsortL|].
        intros p Hp. apply Hdata1. auto.
      - change (Sorted Z.le (values m R')).
        rewrite <- (values_agree m m2 R'); [exact HsortR|].
        intros p Hp. apply Hdata2. auto. }
    split; [|exact Hh4].
    apply links_only_trans with (m2 := m1).
    { apply links_only_set_next. rewrite Hns. apply in_or_app. now left. }
    apply links_only_trans with (m2 := m2).
    { apply links_only_incl with (ns := L); [|exact Hlinks2].
      intros p Hp. rewrite Hns. apply in_or_app. now left. }
    apply links_only_trans with (m2 := m3).
    { apply links_only_incl with (ns := after); [|exact Hlinks3].
      intros p Hp. rewrite Hns. apply in_or_app. now right. }
    apply links_only_incl with (ns := L' ++ R'); [|exact Hlinks4].
    intros p Hp. apply in_app_or in Hp as [Hp|Hp]; auto.
Qed.

End SortNodes.

(** ** The calls of the list *)

Ltac concrete_apart :=
  cbn [all_apart app]; repeat split;
  intros ? ?;
  repeat match goal with
         | H : _ \/ _ |- _ => destruct H
         | H : False |- _ => destruct H
         | H : In _ _ |- _ => cbn [In] in H
         end;
  subst; unfold apart, node_bytes; lia.

Ltac concrete_list := vm_compute; repeat split; discriminate.

Section ListCalls.

Lemma getLength_and_display_witness :
  getLength 5 list_of_two pool_with_two_nodes
  = Done (Z.of_nat (length [4112; 4128])) list_of_two pool_with_two_nodes /\
  display 5 list_of_two pool_with_two_nodes
  = Done (values (heap pool_with_two_nodes) [4112; 4128]) list_of_two
      pool_with_two_nodes.
Proof.
  apply (getLength_and_display [4112; 4128] 5 list_of_two
           pool_with_two_nodes).
  - concrete_list.
  - cbn [length]. lia.
  - reflexivity.
Defined.

Lemma insert_appends_witness :
  exists l' s',
    insert 5 2 list_of_two pool_with_two_nodes = Done tt l' s' /\
    list_at (heap s') (head l') ([4112; 4128] ++ [4144]) /\
    values (heap s') ([4112; 4128] ++ [4144])
    = values (heap pool_with_two_nodes) [4112; 4128] ++ [2] /\
    free_list_is (heap s') (freeList (this s')) [4160] /\
    usedBlocks (this s')
    = wrap (usedBlocks (this pool_with_two_nodes) + 1) /\
    new_results s' = new_results pool_with_two_nodes /\
    list_spinlock l' = list_spinlock list_of_two.
Proof.
  apply (insert_appends 2 4144 [4160] [4112; 4128] 5 list_of_two
           pool_with_two_nodes).
  - reflexivity.
  - split; [discriminate | reflexivity].
  - concrete_list.
  - concrete_list.
  - concrete_apart.
  - split; [discriminate | reflexivity].
  - cbn [length]. lia.
Defined.

Lemma remove_absent_value_witness :
  remove 5 7 list_of_two pool_with_two_nodes
  = Done tt list_of_two pool_with_two_nodes.
Proof.
  apply (remove_absent_value 7 [4112; 4128] 5 list_of_two
           pool_with_two_nodes).
  - concrete_list.
  - intros p [<-|[<-|[]]]; vm_compute; discriminate.
  - cbn [length]. lia.
Defined.

Lemma remove_first_match_witness :
  exists l' s',
    remove 5 1 list_of_two pool_with_two_nodes = Done tt l' s' /\
    list_at (heap s') (head l') ([4112] ++ []) /\
    values (heap s') ([4112] ++ [])
    = values (heap pool_with_two_nodes) ([4112] ++ []) /\
    free_list_is (heap s') (freeList (this s')) (4128 :: [4144; 4160]) /\
    usedBlocks (this s') = usedBlocks (this pool_with_two_nodes) /\
    list_spinlock l' = list_spinlock list_of_two.
Proof.
  apply (remove_first_match 1 [4112] 4128 [] [4144; 4160] 5 list_of_two
           pool_with_two_nodes).
  - reflexivity.
  - split; [discriminate | reflexivity].
  - concrete_list.
  - concrete_list.
  - concrete_apart.
  - intros p [<-|[]]; vm_compute; discriminate.
  - reflexivity.
  - cbn [length]. lia.
Defined.

Lemma clear_releases_all_witness :
  exists s',
    clear 5 list_of_two pool_with_two_nodes
    = Done tt SingleLinkedList_ctor s' /\
    SingleLinkedList_dtor 5 list_of_two pool_with_two_nodes
    = Done tt {| list_spinlock := {| lock := false |};
                 head := head list_of_two |} s' /\
    free_list_is (heap s') (freeList (this s'))
      (rev [4112; 4128] ++ [4144; 4160]) /\
    list_at (heap s') 0 [] /\
    lock (spinlock (this s')) = false /\
    usedBlocks (this s') = usedBlocks (this pool_with_two_nodes) /\
    totalBlocks (this s') = totalBlocks (this pool_with_two_nodes).
Proof.
  apply (clear_releases_all [4112; 4128] [4144; 4160] 5 list_of_two
           pool_with_two_nodes).
  - reflexivity.
  - reflexivity.
  - split; [discriminate | reflexivity].
  - split; [discriminate | reflexivity].
  - concrete_list.
  - concrete_list.
  - concrete_apart.
  - cbn [length]. lia.
Defined.

(** [mergeSort] sorts the list in place.  On a list of nodes [ns] that
    are pairwise apart, with a bound above its length, the call returns; the
    list then consists of the same nodes, linked in an order in which the
    values ascend; the values are those the list had; only [next] fields of
    its nodes were written, and the pool is untouched. *)
Theorem mergeSort_sorts ns bound l s :
  list_at (heap s) (head l) ns ->
  all_apart ns ->
  in_range (head l) ->
  (length ns < bound)%nat ->
  exists l' s' ns',
    mergeSort bound l s = Done tt l' s' /\
    list_at (heap s') (head l') ns' /\
    Permutation ns ns' /\
    Sorted Z.le (values (heap s') ns') /\
    Permutation (values (heap s) ns) (values (heap s') ns') /\
    links_only ns (heap s) (heap s') /\
    this s' = this s /\
    list_spinlock l' = list_spinlock l.
Proof.
  intros Hlist Hapart Hh Hbound.
  destruct (mergeSort_rec_spec bound bound (heap s) ns (head l)
              Hlist Hapart Hh Hbound Hbound)
    as (h' & m' & ns' & Hrun & Hlist' & Hperm & Hsorted & Hlinks & _).
  unfold mergeSort, mergeSort_node. rewrite Hrun.
  eexists. eexists. exists ns'. split; [reflexivity|].
  cbn [head heap upd_heap this list_spinlock].
  assert (Hvalues : values m' ns' = values (heap s) ns').
  { apply values_agree. intros p Hp.
    apply (links_only_data ns); [exact Hlinks|].
    intros q Hq. apply (all_apart_In ns); [exact Hapart| |exact Hq].
    apply (Permutation_in p (Permutation_sym Hperm) Hp). }
  split; [exact Hlist'|]. split; [exact Hperm|].
  rewrite Hvalues. split; [exact Hsorted|].
  split; [now apply Permutation_map|].
  split; [exact Hlinks|]. split; reflexivity.
Qed.

Lemma mergeSort_sorts_witness :
  exists l' s' ns',
    mergeSort 5 list_of_two pool_with_two_nodes = Done tt l' s' /\
    list_at (heap s') (head l') ns' /\
    Permutation [4112; 4128] ns' /\
    Sorted Z.le (values (heap s') ns') /\
    Permutation (values (heap pool_with_two_nodes) [4112; 4128])
      (values (heap s') ns') /\
    links_only [4112; 4128] (heap pool_with_two_nodes) (heap s') /\
    this s' = this pool_with_two_nodes /\
    list_spinlock l' = list_spinlock list_of_two.
Proof.
  apply (mergeSort_sorts [4112; 4128] 5 list_of_two pool_with_two_nodes).
  - concrete_list.
  - concrete_apart.
  - split; [discriminate | reflexivity].
  - cbn [length]. lia.
Defined.

(** [merge] of two sorted lists.  For two lists of nodes that are apart and
    whose values ascend, with a bound above their total length, [merge]
    returns the head of one list that holds all the nodes of both, with
    ascending values; only [next] fields of these nodes are written. *)
Theorem merge_sorted_lists m ns1 ns2 left right bound :
  list_at m left ns1 -> list_at m right ns2 ->
  all_apart (ns1 ++ ns2) ->
  in_range left -> in_range right ->
  Sorted Z.le (values m ns1) -> Sorted Z.le (values m ns2) ->
  (length ns1 + length ns2 < bound)%nat ->
  exists h m' ns',
    merge bound m left right = Some (h, m') /\
    list_at m' h ns' /\
    Permutation (ns1 ++ ns2) ns' /\
    Sorted Z.le (values m' ns') /\
    links_only (ns1 ++ ns2) m m' /\
    (h = left \/ h = right).
Proof.
  intros H1 H2 Hapart Hl Hr Hs1 Hs2 Hbound.
  destruct (merge_spec m bound ns1 ns2 left right H1 H2 Hapart Hl Hr Hbound)
    as (h & m' & Hrun & Hlist & Hlinks & _).
  exists h, m', (merge_by (node_data m) ns1 ns2).
  split; [exact Hrun|]. split; [exact Hlist|].
  split; [apply merge_by_perm|].
  assert (Hvalues : values m' (merge_by (node_data m) ns1 ns2)
                    = values m (merge_by (node_data m) ns1 ns2)).
  { apply values_agree. intros p Hp.
    apply (links_only_data (ns1 ++ ns2)); [exact Hlinks|].
    intros q Hq. apply (all_apart_In (ns1 ++ ns2)); [exact Hapart| |exact Hq].
    apply (Permutation_in p (Permutation_sym (merge_by_perm _ _ _)) Hp). }
  rewrite Hvalues. split; [now apply merge_by_sorted|].
  split; [exact Hlinks|].
  (* the head is the head of one of the two lists *)
  destruct bound as [|k]; [lia|]. cbn [merge] in Hrun.
  destruct (left =? 0) eqn:El; [right; congruence|].
  destruct (right =? 0) eqn:Er; [left; congruence|].
  destruct (node_data m left <=? node_data m right).
  - destruct (merge k m (node_next m left) right) as [[? ?]|];
      [left; congruence|discriminate].
  - destruct (merge k m left (node_next m right)) as [[? ?]|];
      [right; congruence|discriminate].
Qed.

Lemma merge_sorted_lists_witness :
  exists h m' ns',
    merge 5 (set_next two_nodes_heap 4112 0) 4112 4128 = Some (h, m') /\
    list_at m' h ns' /\
    Permutation ([4112] ++ [4128]) ns' /\
    Sorted Z.le (values m' ns') /\
    links_only ([4112] ++ [4128]) (set_next two_nodes_heap 4112 0) m' /\
    (h = 4112 \/ h = 4128).
Proof.
  apply (merge_sorted_lists (set_next two_nodes_heap 4112 0) [4112] [4128]
           4112 4128 5).
  - concrete_list.
  - concrete_list.
  - concrete_apart.
  - split; [discriminate | reflexivity].
  - split; [discriminate | reflexivity].
  - repeat constructor.
  - repeat constructor.
  - cbn [length]. lia.
Defined.

(** [getMiddle] returns the node at position [(n - 1) / 2] of a list of [n]
    nodes (the first of the two middle nodes when [n] is even), and null for
    the empty list; it changes nothing. *)
Theorem getMiddle_returns_middle ns bound l s :
  list_at (heap s) (head l) ns ->
  (length ns <= bound)%nat ->
  getMiddle bound l s
  = Done (nth (Nat.div2 (length ns - 1)) ns 0) l s.
Proof.
  intros Hlist Hbound. unfold getMiddle, lbind, get_head, bounded.
  destruct ns as [|a [|b rest]].
  - unfold list_at in Hlist. simpl in Hlist. rewrite Hlist. reflexivity.
  - destruct Hlist as [-> [Ha Hend]]. simpl in Hend.
    unfold getMiddle_node. rewrite Hend, Z.eqb_refl, orb_true_r. reflexivity.
  - destruct (getMiddle_node_spec (heap s) (a :: b :: rest) (head l) bound
                Hlist) as (before & mid & after & Hrun & Hsplit & _ & Hlen);
      [cbn [length]; lia|exact Hbound|].
    rewrite Hrun, <- Hlen, Hsplit.
    rewrite app_nth2, Nat.sub_diag by lia. reflexivity.
Qed.

Lemma getMiddle_returns_middle_witness :
  getMiddle 5 list_of_two pool_with_two_nodes
  = Done (nth (Nat.div2 (length [4112; 4128] - 1)) [4112; 4128] 0)
      list_of_two pool_with_two_nodes.
Proof.
  apply (getMiddle_returns_middle [4112; 4128] 5 list_of_two
           pool_with_two_nodes).
  - concrete_list.
  - cbn [length]. lia.
Defined.

(** [allocateBlock] on an empty free list when the reservation fails. *)
Lemma allocateBlock_fails s :
  lock (spinlock (this s)) = false ->
  freeList (this s) = 0 ->
  reservation_fails s ->
  exists s',
    allocateBlock s = Throws (reservation_failure s) s' /\
    lock (spinlock (this s')) = true /\
    heap s' = heap s.
Proof.
  intros Hlock Hfl Hfail. unfold reservation_fails in Hfail.
  unfold reservation_failure.
  run. rewrite Hlock. run. rewrite Hfl. cbn [Z.eqb].
  destruct (new_results s) as [|[raw|] rest].
  - eexists. repeat split.
  - subst raw. run. cbn [Z.eqb]. run. eexists. repeat split.
  - eexists. repeat split.
Qed.

(** A failed [insert] blocks the list.  When the pool has no free block
    and the reservation for its growth fails, [insert] lets the exception
    through; the list is as it was, but the pool's lock stays held, so every
    later [insert] hangs, and so does [clear] on a list that has a node. *)
Theorem insert_failure_blocks_list bound value l s :
  lock (spinlock (this s)) = false ->
  freeList (this s) = 0 ->
  reservation_fails s ->
  lock (list_spinlock l) = false ->
  exists s',
    insert bound value l s = Raised (reservation_failure s) l s' /\
    heap s' = heap s /\
    (forall bound' value', insert bound' value' l s' = Hangs) /\
    (head l <> 0 -> forall bound', clear (S bound') l s' = Hangs).
Proof.
  intros Hlock Hfl Hfail Hllock.
  destruct (allocateBlock_fails s Hlock Hfl Hfail) as [s' [Hrun [Hheld Hheap]]].
  exists s'. unfold insert at 1, lbind at 1, on_pool. rewrite Hrun.
  split; [reflexivity|]. split; [exact Hheap|].
  assert (Halloc : allocateBlock s' = Spins).
  { run. rewrite Hheld. reflexivity. }
  assert (Hdealloc : forall block, deallocateBlock block s' = Spins).
  { intros block. now apply deallocateBlock_locked. }
  split.
  - intros bound' value'. unfold insert, lbind at 1, on_pool.
    rewrite Halloc. reflexivity.
  - intros Hhead bound'.
    unfold clear, lbind at 1, lock_list. rewrite Hllock.
    unfold lbind at 1, get_head. cbn [head release_loop].
    apply Z.eqb_neq in Hhead. unfold lbind at 1. cbn [release_loop].
    rewrite Hhead. unfold lbind at 1, read_heap.
    unfold lbind at 1, on_pool. rewrite Hdealloc. reflexivity.
Qed.

Lemma insert_failure_blocks_list_witness :
  exists s',
    insert 5 2 list_of_two exhausted_pool
    = Raised (reservation_failure exhausted_pool) list_of_two s' /\
    heap s' = heap exhausted_pool /\
    (forall bound' value', insert bound' value' list_of_two s' = Hangs) /\
    (head list_of_two <> 0 ->
     forall bound', clear (S bound') list_of_two s' = Hangs).
Proof.
  apply (insert_failure_blocks_list 5 2 list_of_two exhausted_pool).
  - reflexivity.
  - reflexivity.
  - exact I.
  - reflexivity.
Defined.

(** What [reset] leaves once the consumer has written a link: a pool of
    four 16-byte blocks at 4112, two values inserted in a list, then [reset].
    The node at 4112 holds the value 3 where the free block's link was, so
    the free list read from the head is 4112, then the address 3. *)
Example reset_after_inserts_reads_data :
  match (insert 5 3 ;;; insert 5 1 ;;; on_pool reset) SingleLinkedList_ctor
          (constructed 16 4 16 4099 [] (start_state [Some 4099])) with
  | Done _ l s =>
      Some (head l, usedBlocks (this s),
            free_blocks 2 (heap s) (freeList (this s)))
  | _ => None
  end = Some (4112, 0, [4112; 3]).
Proof. vm_compute. reflexivity. Qed.

End ListCalls.
